(** * Smart Channel Swapper: the colour-pair store and the matrix solver

    A shallow embedding of [main.js]: the colour-pair store
    ([addColorPair], [removeColorPair], [setSourceForPair],
    [setTargetForPair]), the first half of the calculate-button handler,
    the numeric core ([computeChannelSwapperMatrix], [solveLeastSquares],
    [solveLinearSystem]), and the hand-over to Photoshop
    ([getCurrentForegroundColor], [applyChannelSwapperSettings], the
    descriptor of [createChannelSwapperWithSettings]).

    JavaScript numbers are IEEE binary64 values.  The numeric core is
    written once, over an interface of the arithmetic operations the source
    uses, and instantiated twice: with exact rationals ([Qc]), where the
    algebraic properties are proved, and with the kernel's binary64 floats,
    where the source's behaviour on concrete inputs is evaluated bit for
    bit. *)

From Stdlib Require Import ZArith QArith Qabs Qcanon Qround Lia List String Permutation Sorted.
From Stdlib Require Import PrimFloat Uint63 Floats.
From stdpp Require Import base tactics option list sorting.

#[local] Set Warnings "-inexact-float".

(** ** Outcomes of a JavaScript computation *)

(** The only exception the numeric core can raise is the [TypeError] of a
    property read on [undefined] ([A[0].length] on an empty array). *)
Inductive js_error := TypeError.

(** [Returned v]: normal completion with value [v].
    [Threw e]: an exception propagated to the caller.
    [NonFinite]: no exception in JavaScript, but the computation consumed a
    value that is not a finite number: an [undefined] array slot read as a
    number, or (in exact arithmetic only) the quotient of a division by
    zero.  JavaScript goes on with [NaN] or an infinity; the model stops
    here and makes no statement about the values that follow. *)
Inductive outcome (A : Type) :=
| Returned (a : A)
| Threw (e : js_error)
| NonFinite.
Arguments Returned {A} a.
Arguments Threw {A} e.
Arguments NonFinite {A}.

#[export] Instance outcome_ret : MRet outcome := @Returned.
#[export] Instance outcome_bind : MBind outcome := λ A B f m,
  match m with
  | Returned a => f a
  | Threw e => Threw e
  | NonFinite => NonFinite
  end.

(** [for (x of l) acc = f(acc, x)], stopping at the first abnormal outcome. *)
Fixpoint foldM {A B : Type} (f : B → A → outcome B) (l : list A) (b : B)
  : outcome B :=
  match l with
  | [] => Returned b
  | a :: l' => b' ← f b a; foldM f l' b'
  end.

(** [l.reduce((acc, x, k) => f(acc, k, x), b)], the index starting at [k]. *)
Fixpoint foldMi {A B : Type} (f : B → nat → A → outcome B) (k : nat)
  (l : list A) (b : B) : outcome B :=
  match l with
  | [] => Returned b
  | a :: l' => b' ← f b k a; foldMi f (S k) l' b'
  end.

(** [l.map(f)], elements visited left to right. *)
Fixpoint mapMo {A B : Type} (f : A → outcome B) (l : list A)
  : outcome (list B) :=
  match l with
  | [] => Returned []
  | a :: l' => b ← f a; bs ← mapMo f l'; Returned (b :: bs)
  end.

(** [l.map((x, i) => f(i, x))], the index starting at [k]. *)
Fixpoint mapMi {A B : Type} (f : nat → A → outcome B) (k : nat) (l : list A)
  : outcome (list B) :=
  match l with
  | [] => Returned []
  | a :: l' => b ← f k a; bs ← mapMi f (S k) l'; Returned (b :: bs)
  end.

(** ** The arithmetic the source uses *)

Class JsNumber (num : Type) := {
  lit : Z → num;                    (* an integer literal or integer field *)
  lit_1e10 : num;                   (* the literal 1e-10 *)
  lit_1e12 : num;                   (* the literal 1e-12 *)
  nadd : num → num → num;           (* a + b *)
  nsub : num → num → num;           (* a - b *)
  nmul : num → num → num;           (* a * b *)
  ndiv : num → num → outcome num;   (* a / b *)
  nabs : num → num;                 (* Math.abs(a) *)
  nlt : num → num → bool;           (* a < b;  b > a *)
  nmax : num → num → num;           (* Math.max(a, b) *)
  nmin : num → num → num;           (* Math.min(a, b) *)
}.

(** *** Exact rationals *)

Definition Qc_ltb (a b : Qc) : bool := negb (Qle_bool (this b) (this a)).
Definition Qc_abs (a : Qc) : Qc := if Qc_ltb a 0 then (- a)%Qc else a.

(** Division by zero has no finite quotient: the exact model stops. *)
Definition Qc_div (a b : Qc) : outcome Qc :=
  if Qc_eq_bool b 0 then NonFinite else Returned (a / b)%Qc.

#[export] Instance exact : JsNumber Qc := {|
  lit z := Q2Qc (inject_Z z);
  lit_1e10 := Q2Qc (1 # 10000000000);
  lit_1e12 := Q2Qc (1 # 1000000000000);
  nadd := Qcplus;
  nsub := Qcminus;
  nmul := Qcmult;
  ndiv := Qc_div;
  nabs := Qc_abs;
  nlt := Qc_ltb;
  nmax a b := if Qc_ltb a b then b else a;
  nmin a b := if Qc_ltb b a then b else a;
|}.

(** *** IEEE binary64, the arithmetic JavaScript runs *)

Definition float_of_Z (z : Z) : float :=
  match z with
  | Z0 => PrimFloat.zero
  | Zpos _ => PrimFloat.of_uint63 (Uint63.of_Z z)
  | Zneg p => PrimFloat.opp (PrimFloat.of_uint63 (Uint63.of_Z (Zpos p)))
  end.

(** [Math.max]: [NaN] if either argument is [NaN]; [+0] is larger than [-0]. *)
Definition float_max (a b : float) : float :=
  if (PrimFloat.is_nan a || PrimFloat.is_nan b)%bool then PrimFloat.nan
  else if PrimFloat.ltb a b then b
  else if PrimFloat.ltb b a then a
  else if PrimFloat.get_sign a then b else a.

(** [Math.min]: [NaN] if either argument is [NaN]; [-0] is smaller than [+0]. *)
Definition float_min (a b : float) : float :=
  if (PrimFloat.is_nan a || PrimFloat.is_nan b)%bool then PrimFloat.nan
  else if PrimFloat.ltb a b then a
  else if PrimFloat.ltb b a then b
  else if PrimFloat.get_sign a then a else b.

(** Division always has a value here (an infinity or [NaN] when the divisor
    is zero).  The two literals are the doubles nearest to 1e-10 and 1e-12. *)
#[export] Instance binary64 : JsNumber float := {|
  lit := float_of_Z;
  lit_1e10 := 0x1.b7cdfd9d7bdbbp-34%float;
  lit_1e12 := 0x1.19799812dea11p-40%float;
  nadd := PrimFloat.add;
  nsub := PrimFloat.sub;
  nmul := PrimFloat.mul;
  ndiv a b := Returned (PrimFloat.div a b);
  nabs := PrimFloat.abs;
  nlt := PrimFloat.ltb;
  nmax := float_max;
  nmin := float_min;
|}.

(** ** Colours *)

(** [{r, g, b}] as [getCurrentForegroundColor] builds it: three integers. *)
Record color := { r : Z; g : Z; b : Z }.

Definition channel_ok (v : Z) : Prop := (0 ≤ v ≤ 255)%Z.
Definition well_formed (c : color) : Prop :=
  channel_ok (r c) ∧ channel_ok (g c) ∧ channel_ok (b c).

(** ** The colour-pair store *)

(** [{id, source, target}]; [null] is [None].  [id] and [nextPairId] are
    JavaScript numbers that only hold integers (exact below 2^53); the
    model takes them in [Z]. *)
Record pair := { id : Z; source : option color; target : option color }.

(** The two module-level variables [colorPairs] and [nextPairId].  Rendering
    the list and the text shown by [showResult] are not part of the state. *)
Record store := { colorPairs : list pair; nextPairId : Z }.

Definition initialStore : store := {| colorPairs := []; nextPairId := 1 |}.

Definition addColorPair (st : store) : store :=
  let i := nextPairId st in
  {| colorPairs := colorPairs st ++ [{| id := i; source := None; target := None |}];
     nextPairId := (nextPairId st + 1)%Z |}.

Definition removeColorPair (i : Z) (st : store) : store :=
  {| colorPairs := filter (λ p, id p ≠ i) (colorPairs st);
     nextPairId := nextPairId st |}.

(** [colorPairs.find(p => p.id === id)] is the first such pair; the
    assignment mutates that element of the array in place.  [fg] is the
    colour [getCurrentForegroundColor()] returns. *)
Definition setSourceForPair (i : Z) (fg : color) (st : store) : store :=
  match list_find (λ p, id p = i) (colorPairs st) with
  | Some (k, p) =>
      {| colorPairs :=
           <[k := {| id := id p; source := Some fg; target := target p |}]>
             (colorPairs st);
         nextPairId := nextPairId st |}
  | None => st
  end.

Definition setTargetForPair (i : Z) (fg : color) (st : store) : store :=
  match list_find (λ p, id p = i) (colorPairs st) with
  | Some (k, p) =>
      {| colorPairs :=
           <[k := {| id := id p; source := source p; target := Some fg |}]>
             (colorPairs st);
         nextPairId := nextPairId st |}
  | None => st
  end.

(** The actions the panel offers, and a session as a sequence of them. *)
Inductive action :=
| Add
| Remove (i : Z)
| SetSource (i : Z) (fg : color)
| SetTarget (i : Z) (fg : color).

Definition perform (st : store) (a : action) : store :=
  match a with
  | Add => addColorPair st
  | Remove i => removeColorPair i st
  | SetSource i fg => setSourceForPair i fg st
  | SetTarget i fg => setTargetForPair i fg st
  end.

Definition session (actions : list action) (st : store) : store :=
  fold_left perform actions st.

Definition ids (st : store) : list Z := map id (colorPairs st).

(** ** The calculate button, up to the call of the solver *)

(** [p => p.source && p.target] *)
Definition complete (p : pair) : Prop := is_Some (source p) ∧ is_Some (target p).

(** What the click handler does first: either it shows a text and returns,
    or it calls [computeChannelSwapperMatrix] with three arguments
    ([maxSum] takes its default, 100). *)
Inductive dispatch :=
| ShowResult (text : string)
| CallSolver (sourceColors targetColors : list color) (preventClipping : bool).

(** [validPairs.map(p => p.source)]: every pair of [validPairs] has both
    colours, so keeping the colours that are present keeps them all. *)
Definition calculateClick (st : store) (clippingToggle : bool) : dispatch :=
  let validPairs := filter complete (colorPairs st) in
  if Nat.eqb (length validPairs) 0
  then ShowResult
         "Please add at least one complete color pair (source + target)."
  else CallSolver (omap source validPairs) (omap target validPairs)
         clippingToggle.

(** ** The matrix computation *)

Section Solver.
Context {num : Type} {N : JsNumber num}.

(** [a[i]] read as a number.  Every slot the source reads is used in
    arithmetic at once or stored in a row that is; an absent slot
    ([undefined]) ends the run as [NonFinite] at the read. *)
Definition getNum (a : list num) (i : nat) : outcome num :=
  match a !! i with
  | Some v => Returned v
  | None => NonFinite
  end.

(** [m[i]] read as a row that is indexed next: [undefined[j]] throws. *)
Definition getRow (m : list (list num)) (i : nat) : outcome (list num) :=
  match m !! i with
  | Some row => Returned row
  | None => Threw TypeError
  end.

(** [m[i][j]] *)
Definition at2 (m : list (list num)) (i j : nat) : outcome num :=
  row ← getRow m i; getNum row j.

(** [m[i][j] = v], after [m[i][j]] has been read. *)
Definition setAt (m : list (list num)) (i j : nat) (v : num)
  : outcome (list (list num)) :=
  row ← getRow m i; Returned (<[i := <[j := v]> row]> m).

(** *** solveLinearSystem *)

(** [A.map((row, i) => [...row, b[i]])] *)
Definition augment (A : list (list num)) (b : list num)
  : outcome (list (list num)) :=
  mapMi (λ i row, bi ← getNum b i; Returned (row ++ [bi])) 0 A.

(** The pivot search of column [col]: rows [col+1 .. n-1]. *)
Definition findPivot (n col : nat) (aug : list (list num)) : outcome nat :=
  foldM (λ maxRow row,
           a ← at2 aug row col;
           m ← at2 aug maxRow col;
           Returned (if nlt (nabs m) (nabs a) then row else maxRow))
        (seq (S col) (n - S col)) col.

(** [[aug[col], aug[maxRow]] = [aug[maxRow], aug[col]]].  A missing row
    makes the read of [aug[col][col]] that follows throw. *)
Definition swapRows (aug : list (list num)) (col maxRow : nat)
  : outcome (list (list num)) :=
  rm ← getRow aug maxRow;
  rc ← getRow aug col;
  Returned (<[maxRow := rc]> (<[col := rm]> aug)).

(** The body of the row loop: [factor], then columns [col .. n]. *)
Definition eliminateRow (n col : nat) (aug : list (list num)) (row : nat)
  : outcome (list (list num)) :=
  a ← at2 aug row col;
  p ← at2 aug col col;
  factor ← ndiv a p;
  foldM (λ aug j,
           v ← at2 aug row j;
           c ← at2 aug col j;
           setAt aug row j (nsub v (nmul factor c)))
        (seq col (S n - col)) aug.

(** One iteration of the column loop. *)
Definition elimStep (n : nat) (aug : list (list num)) (col : nat)
  : outcome (list (list num)) :=
  maxRow ← findPivot n col aug;
  aug ← swapRows aug col maxRow;
  p ← at2 aug col col;
  if nlt (nabs p) lit_1e12 then Returned aug
  else foldM (eliminateRow n col) (seq (S col) (n - S col)) aug.

Definition forwardElimination (n : nat) (aug : list (list num))
  : outcome (list (list num)) :=
  foldM (elimStep n) (seq 0 n) aug.

(** One iteration of the back-substitution loop.  [x] has [n] slots and
    [i < n], so the writes to [x[i]] never extend it. *)
Definition backStep (n : nat) (aug : list (list num)) (x : list num)
  (i : nat) : outcome (list num) :=
  d ← at2 aug i i;
  if nlt (nabs d) lit_1e12
  then Returned (<[i := if Nat.eqb i 0 then lit 1 else lit 0]> x)
  else
    rhs ← at2 aug i n;
    x ← foldM (λ x j,
                 xi ← getNum x i;
                 a ← at2 aug i j;
                 xj ← getNum x j;
                 Returned (<[i := nsub xi (nmul a xj)]> x))
              (seq (S i) (n - S i)) (<[i := rhs]> x);
    xi ← getNum x i;
    d ← at2 aug i i;
    q ← ndiv xi d;
    Returned (<[i := q]> x).

(** [new Array(n).fill(0)], then [i = n-1 .. 0]. *)
Definition backSubstitute (n : nat) (aug : list (list num))
  : outcome (list num) :=
  foldM (backStep n aug) (rev (seq 0 n)) (replicate n (lit 0)).

Definition solveLinearSystem (A : list (list num)) (b : list num)
  : outcome (list num) :=
  let n := length A in
  aug ← augment A b;
  aug ← forwardElimination n aug;
  backSubstitute n aug.

(** *** solveLeastSquares *)

(** [A.reduce((sum, row) => sum + row[i] * row[j], 0)] *)
Definition ATA_entry (A : list (list num)) (i j : nat) : outcome num :=
  foldM (λ sum row,
           ri ← getNum row i;
           rj ← getNum row j;
           Returned (nadd sum (nmul ri rj)))
        A (lit 0).

(** [A.reduce((sum, row, k) => sum + row[i] * b[k], 0)] *)
Definition ATb_entry (A : list (list num)) (b : list num) (i : nat)
  : outcome num :=
  foldMi (λ sum k row,
            ri ← getNum row i;
            bk ← getNum b k;
            Returned (nadd sum (nmul ri bk)))
         0 A (lit 0).

(** [for (i < m) ATA[i][i] += epsilon] *)
Definition regularize (m : nat) (ATA : list (list num))
  : outcome (list (list num)) :=
  foldM (λ ATA i, v ← at2 ATA i i; setAt ATA i i (nadd v lit_1e10))
        (seq 0 m) ATA.

(** [Array.from({ length: m }, (_, i) => Array.from({ length: m }, ...))] *)
Definition buildATA (m : nat) (A : list (list num)) : outcome (list (list num)) :=
  mapMo (λ i, mapMo (λ j, ATA_entry A i j) (seq 0 m)) (seq 0 m).

(** [Array.from({ length: m }, (_, i) => A.reduce(...))] *)
Definition buildATb (m : nat) (A : list (list num)) (b : list num)
  : outcome (list num) :=
  mapMo (λ i, ATb_entry A b i) (seq 0 m).

Definition solveLeastSquares (A : list (list num)) (b : list num)
  : outcome (list num) :=
  row0 ← getRow A 0;
  let m := length row0 in
  ATA ← buildATA m A;
  ATb ← buildATb m A b;
  ATA ← regularize m ATA;
  solveLinearSystem ATA ATb.

(** *** computeChannelSwapperMatrix *)

(** [c => [c.r / 255, c.g / 255, c.b / 255]] *)
Definition normalize (c : color) : outcome (list num) :=
  cr ← ndiv (lit (r c)) (lit 255);
  cg ← ndiv (lit (g c)) (lit 255);
  cb ← ndiv (lit (b c)) (lit 255);
  Returned [cr; cg; cb].

(** [row.reduce((sum, val) => sum + val, 0)] *)
Definition rowSum (row : list num) : num := fold_left nadd row (lit 0).

(** The clipping-prevention step of one row. *)
Definition preventClip (maxSum : num) (row : list num)
  : outcome (list num) :=
  let s := rowSum row in
  if nlt maxSum (nabs s)
  then scale ← ndiv maxSum (nabs s);
       Returned (map (λ v, nmul v scale) row)
  else Returned row.

(** [v => Math.max(-200, Math.min(200, v))] *)
Definition clamp (v : num) : num := nmax (lit (-200)) (nmin (lit 200) v).

(** The body of the channel loop: the row pushed onto [matrix]. *)
Definition channelRow (src tgt : list (list num)) (preventClipping : bool)
  (maxSum : num) (channel : nat) : outcome (list num) :=
  targetValues ← mapMo (λ t, getNum t channel) tgt;
  weights ← solveLeastSquares src targetValues;
  let row := map (λ w, nmul w (lit 100)) weights in
  row ← (if preventClipping then preventClip maxSum row else Returned row);
  Returned (map clamp row).

Definition computeChannelSwapperMatrix (sourceColors targetColors : list color)
  (preventClipping : bool) (maxSum : num) : outcome (list (list num)) :=
  src ← mapMo normalize sourceColors;
  tgt ← mapMo normalize targetColors;
  mapMo (channelRow src tgt preventClipping maxSum) (seq 0 3).

End Solver.

(** ** Vocabulary of the statements *)

(** A matrix of [n] rows and [k] columns. *)
Definition shaped {num : Type} (n k : nat) (M : list (list num)) : Prop :=
  length M = n ∧ Forall (λ row, length row = k) M.

(** An entry of the exact matrix within the host's range. *)
Definition in_range (v : Qc) : Prop := (lit (-200) ≤ v ∧ v ≤ lit 200)%Qc.

(** The entries of an exact matrix as reduced fractions. *)
Definition fractions (o : outcome (list (list Qc))) : outcome (list (list Q)) :=
  M ← o; Returned (map (map this) M).

(** The row [c => [c.r / 255, c.g / 255, c.b / 255]] in exact arithmetic. *)
Definition normalized (c : color) : list Qc :=
  [lit (r c) / lit 255; lit (g c) / lit 255; lit (b c) / lit 255]%Qc.

(** Entry [channel] of that row. *)
Definition component (channel : nat) (c : color) : Qc :=
  nth channel (normalized c) 0%Qc.

(** The sum of a list of rationals. *)
Definition qsum (l : list Qc) : Qc := foldr Qcplus 0%Qc l.

(** The regularised normal equations as the specification states them,
    (AᵗA + εI) w = Aᵗb with ε = 1e-10: the left side minus the right side
    of equation [i]. *)
Definition normalResidual (A : list (list Qc)) (bs w : list Qc) (i : nat) : Qc :=
  (qsum (imap (λ j wj,
                 (qsum (map (λ row, nth i row 0 * nth j row 0) A)
                  + (if Nat.eqb i j then lit_1e10 else 0)) * wj) w)
   - qsum (zip_with (λ row bk, nth i row 0 * bk) A bs))%Qc.

(** The residuals of the three equations of each channel, for the weights
    [row / 100] of a matrix of percentages. *)
Definition referenceResiduals (sourceColors targetColors : list color)
    (M : list (list Qc)) : list (list Qc) :=
  imap (λ channel row,
          map (normalResidual (map normalized sourceColors)
                 (map (component channel) targetColors)
                 (map (λ v, v / lit 100)%Qc row))
              (seq 0 3))
       M.

(** The ids are increasing along the list and below the counter. *)
Definition store_inv (st : store) : Prop :=
  StronglySorted Z.lt (ids st) ∧ Forall (λ i, (i < nextPairId st)%Z) (ids st).

Definition rgb (red green blue : Z) : color :=
  {| r := red; g := green; b := blue |}.

(** Two pairs with the same source colour: a collinear design matrix. *)
Definition greySources : list color := [rgb 10 10 10; rgb 10 10 10].
Definition greyTargets : list color := [rgb 1 2 3; rgb 4 5 6].

(** An augmented matrix with two zero rows, as elimination leaves it for
    the system whose nine coefficients are all 1. *)
Definition rankOne : list (list Qc) :=
  [[lit 1; lit 1; lit 1; lit 3]; [lit 0; lit 0; lit 0; lit 0];
   [lit 0; lit 0; lit 0; lit 0]].

(** A store with one pair that has both colours and one that has none. *)
Definition oneComplete : store :=
  session [Add; SetSource 1 (rgb 255 0 0); SetTarget 1 (rgb 0 255 0); Add]
    initialStore.

(** Three pairs whose least-squares row is (-300, 200, 200) percent. *)
Definition steepSources : list color := [rgb 0 51 0; rgb 0 0 51; rgb 51 51 51].
Definition steepTargets : list color :=
  [rgb 102 102 102; rgb 102 102 102; rgb 51 51 51].

(** ** Linear systems in exact arithmetic *)

(** [row[j]], an absent entry read as 0. *)
Definition entry (row : list Qc) (j : nat) : Qc := nth j row 0%Qc.

(** The sum of [f j] for [a ≤ j < a + k]. *)
Definition sumRange (a k : nat) (f : nat → Qc) : Qc := qsum (map f (seq a k)).

(** The left side of equation [row] at [x]: the sum of [row[j] * x[j]]
    over the [n] unknowns. *)
Definition lhs (n : nat) (row x : list Qc) : Qc :=
  sumRange 0 n (λ j, entry row j * entry x j)%Qc.

(** [x] satisfies the equation an augmented row stands for. *)
Definition rowHolds (n : nat) (x row : list Qc) : Prop :=
  lhs n row x = entry row n.

(** [x] satisfies row [i] restricted to the unknowns from [i] on. *)
Definition upperHolds (n i : nat) (x row : list Qc) : Prop :=
  sumRange i (n - i) (λ j, entry row j * entry x j)%Qc = entry row n.

(** [x] satisfies every row of the augmented matrix. *)
Definition solves (n : nat) (x : list Qc) (aug : list (list Qc)) : Prop :=
  ∀ r row, aug !! r = Some row → rowHolds n x row.

(** Below the diagonal, the first [col] columns are zero. *)
Definition lowerZero (col : nat) (aug : list (list Qc)) : Prop :=
  ∀ r c row, c < col → c < r → aug !! r = Some row → entry row c = 0%Qc.

(** No diagonal entry is below the singularity threshold. *)
Definition diagonalRegular (n : nat) (aug : list (list Qc)) : Prop :=
  ∀ i row, i < n → aug !! i = Some row →
           nlt (nabs (entry row i)) lit_1e12 = false.

(** The augmented matrix after forward elimination. *)
Definition eliminated (A : list (list Qc)) (b : list Qc)
  : outcome (list (list Qc)) :=
  aug ← augment A b; forwardElimination (length A) aug.

(** The regularised normal equations of the least-squares problem for a
    design matrix [A] of [m] columns: AᵗA + εI with ε = 1e-10, and Aᵗb. *)
Definition normalMatrix (m : nat) (A : list (list Qc)) : list (list Qc) :=
  map (λ i, map (λ j, (qsum (map (λ row, entry row i * entry row j) A)
                       + (if decide (i = j) then lit_1e10 else 0))%Qc)
                (seq 0 m))
      (seq 0 m).

Definition normalVector (m : nat) (A : list (list Qc)) (b : list Qc)
  : list Qc :=
  map (λ i, qsum (zip_with (λ row bk, entry row i * bk)%Qc A b)) (seq 0 m).

(** The system x + 2y = 5, 3x + 4y = 6, whose rows the pivot search swaps. *)
Definition twoByTwo : list (list Qc) := [[lit 1; lit 2]; [lit 3; lit 4]].
Definition twoByTwoRhs : list Qc := [lit 5; lit 6].

(** The two colours of a pair, when it has both. *)
Definition both (p : pair) : option (color * color) :=
  s ← source p; t ← target p; Some (s, t).

(** The magnitude the pivot search compares: [|aug[r][col]|]. *)
Definition pivotSize (aug : list (list Qc)) (col r : nat) : Qc :=
  Qc_abs (entry (nth r aug []) col).

(** ** Handing the matrix to Photoshop *)

(** [Math.round] in exact arithmetic: the nearest integer, a tie going up. *)
Definition mathRound (v : Qc) : Z := Qfloor (this v + (1 # 2)).

(** [getCurrentForegroundColor], from the three channels of
    [app.foregroundColor.rgb]. *)
Definition getCurrentForegroundColor (fgRed fgGreen fgBlue : Qc) : color :=
  {| r := mathRound fgRed; g := mathRound fgGreen; b := mathRound fgBlue |}.

(** The object [applyChannelSwapperSettings] builds for
    [createChannelSwapperWithSettings]. *)
Record settings := {
  redRed : Z; redGreen : Z; redBlue : Z; redConst : Z;
  greenRed : Z; greenGreen : Z; greenBlue : Z; greenConst : Z;
  blueRed : Z; blueGreen : Z; blueBlue : Z; blueConst : Z;
}.

(** The object literal of [applyChannelSwapperSettings], its properties
    evaluated in the order they are written. *)
Definition roundedSettings (matrix : list (list Qc)) : outcome settings :=
  m00 ← at2 matrix 0 0; m01 ← at2 matrix 0 1; m02 ← at2 matrix 0 2;
  m10 ← at2 matrix 1 0; m11 ← at2 matrix 1 1; m12 ← at2 matrix 1 2;
  m20 ← at2 matrix 2 0; m21 ← at2 matrix 2 1; m22 ← at2 matrix 2 2;
  Returned {|
    redRed := mathRound m00; redGreen := mathRound m01;
    redBlue := mathRound m02; redConst := 0;
    greenRed := mathRound m10; greenGreen := mathRound m11;
    greenBlue := mathRound m12; greenConst := 0;
    blueRed := mathRound m20; blueGreen := mathRound m21;
    blueBlue := mathRound m22; blueConst := 0;
  |}.



(** [{_obj: 'channelMatrix', red, grain, blue, constant}], in percent. *)
Record channelMatrix := { red : Z; grain : Z; blue : Z; constant : Z }.

(** [channelMixerDescriptor]; its [presetKind] is the constant
    [presetKindCustom].  Photoshop's name for the green channel is
    [grain]. *)
Record channelMixer := {
  monochromatic : bool;
  mixerRed : channelMatrix;
  mixerGrain : channelMatrix;
  mixerBlue : channelMatrix;
}.

(** The descriptor [createChannelSwapperWithSettings] builds. *)
Definition channelMixerDescriptor (s : settings) : channelMixer := {|
  monochromatic := false;
  mixerRed := {| red := redRed s; grain := redGreen s; blue := redBlue s;
                 constant := redConst s |};
  mixerGrain := {| red := greenRed s; grain := greenGreen s;
                   blue := greenBlue s; constant := greenConst s |};
  mixerBlue := {| red := blueRed s; grain := blueGreen s; blue := blueBlue s;
                  constant := blueConst s |};
|}.

(** The weights of a descriptor, one row per output channel (red, green,
    blue), one entry per input channel (red, green, blue). *)
Definition weights (d : channelMixer) : list (list Z) :=
  map (λ m, [red m; grain m; blue m]) [mixerRed d; mixerGrain d; mixerBlue d].

Definition constants (d : channelMixer) : list Z :=
  map constant [mixerRed d; mixerGrain d; mixerBlue d].

(** A binary64 entry that is [NaN] or lies in [-200, 200]. *)
Definition nan_or_in_range (v : float) : Prop :=
  PrimFloat.is_nan v = true
  ∨ (PrimFloat.leb (-200) v = true ∧ PrimFloat.leb v 200 = true).

(** The colours of a pair and of an action are well formed. *)
Definition pair_ok (p : pair) : Prop :=
  (∀ c, source p = Some c → well_formed c)
  ∧ (∀ c, target p = Some c → well_formed c).

Definition action_ok (a : action) : Prop :=
  match a with
  | SetSource _ fg | SetTarget _ fg => well_formed fg
  | Add | Remove _ => True
  end.

(** ** Loops that complete *)

Lemma foldM_inv {A B : Type} (P : B → Prop) (f : B → A → outcome B)
    (l : list A) (b : B) :
  P b →
  (∀ b a, a ∈ l → P b → ∃ b', f b a = Returned b' ∧ P b') →
  ∃ b', foldM f l b = Returned b' ∧ P b'.
Proof.
  revert b. induction l as [|a l IH]; intros b Hb Hstep; simpl.
  - eauto.
  - destruct (Hstep b a) as (b1 & -> & Hb1); [left | done |]. simpl.
    apply IH; [done |]. intros b2 a2 Ha2. apply Hstep. by right.
Qed.

Lemma foldMi_inv {A B : Type} (P : B → Prop) (f : B → nat → A → outcome B)
    (l : list A) (k : nat) (b : B) :
  P b →
  (∀ b i a, l !! i = Some a → P b → ∃ b', f b (k + i) a = Returned b' ∧ P b') →
  ∃ b', foldMi f k l b = Returned b' ∧ P b'.
Proof.
  revert k b. induction l as [|a l IH]; intros k b Hb Hstep; simpl.
  - eauto.
  - destruct (Hstep b 0 a) as (b1 & Hf & Hb1); [done | done |].
    rewrite Nat.add_0_r in Hf. rewrite Hf. simpl.
    apply IH; [done |]. intros b2 i a2 Hi.
    replace (S k + i) with (k + S i) by lia. by apply Hstep.
Qed.

Lemma mapMo_returns {A B : Type} (R : A → B → Prop) (f : A → outcome B)
    (l : list A) :
  (∀ a, a ∈ l → ∃ b, f a = Returned b ∧ R a b) →
  ∃ bs, mapMo f l = Returned bs ∧ Forall2 R l bs.
Proof.
  induction l as [|a l IH]; intros Hf; simpl.
  - eauto.
  - destruct (Hf a) as (b & -> & Hb); [left |]. simpl.
    destruct IH as (bs & -> & Hbs).
    { intros a' Ha'. apply Hf. by right. }
    simpl. eauto.
Qed.

Lemma mapMi_returns {A B : Type} (R : A → B → Prop) (f : nat → A → outcome B)
    (l : list A) (k : nat) :
  (∀ i a, l !! i = Some a → ∃ b, f (k + i) a = Returned b ∧ R a b) →
  ∃ bs, mapMi f k l = Returned bs ∧ Forall2 R l bs.
Proof.
  revert k. induction l as [|a l IH]; intros k Hf; simpl.
  - eauto.
  - destruct (Hf 0 a) as (b & Hb & HR); [done |].
    rewrite Nat.add_0_r in Hb. rewrite Hb. simpl.
    destruct (IH (S k)) as (bs & -> & Hbs).
    { intros i a' Hi. replace (S k + i) with (k + S i) by lia. by apply Hf. }
    simpl. eauto.
Qed.

Lemma mapMo_ext {A B : Type} (f f' : A → outcome B) (l : list A) :
  (∀ a, a ∈ l → f a = f' a) → mapMo f l = mapMo f' l.
Proof.
  induction l as [|a l IH]; intros Hf; simpl; [done |].
  rewrite Hf by left. rewrite IH; [done |]. intros a' Ha'. apply Hf. by right.
Qed.

(** ** Shapes *)

Section Shapes.
Context {num : Type} {N : JsNumber num}.
Implicit Types (M aug : list (list num)) (x row : list num).

Lemma getNum_lt x i : i < length x → ∃ v, x !! i = Some v ∧ getNum x i = Returned v.
Proof.
  intros Hi. destruct (lookup_lt_is_Some_2 x i Hi) as [v Hv].
  exists v. unfold getNum. by rewrite Hv.
Qed.

Lemma shaped_lookup n k M i :
  shaped n k M → i < n → ∃ row, M !! i = Some row ∧ length row = k.
Proof.
  intros [Hn Hk] Hi. destruct (lookup_lt_is_Some_2 M i) as [row Hrow]; [lia |].
  exists row. split; [done |]. eapply Forall_lookup_1 in Hk; eauto.
Qed.

Lemma at2_lookup M i j row v :
  M !! i = Some row → row !! j = Some v → at2 M i j = Returned v.
Proof. intros HM Hr. unfold at2, getRow, getNum. rewrite HM. simpl. by rewrite Hr. Qed.

Lemma at2_returns n k M i j :
  shaped n k M → i < n → j < k → ∃ v, at2 M i j = Returned v.
Proof.
  intros HM Hi Hj. destruct (shaped_lookup n k M i) as (row & Hrow & Hlen); [done.. |].
  destruct (getNum_lt row j) as (v & Hv & _); [lia |].
  exists v. eapply at2_lookup; eauto.
Qed.

Lemma shaped_insert n k M i row :
  shaped n k M → length row = k → shaped n k (<[i := row]> M).
Proof.
  intros [Hn Hk] Hrow. split; [by rewrite length_insert |].
  apply Forall_insert; done.
Qed.

Lemma setAt_returns n k M i j v :
  shaped n k M → i < n →
  ∃ M', setAt M i j v = Returned M' ∧ shaped n k M' ∧
        ∀ i', i' ≠ i → M' !! i' = M !! i'.
Proof.
  intros HM Hi. destruct (shaped_lookup n k M i) as (row & Hrow & Hlen); [done.. |].
  unfold setAt, getRow. rewrite Hrow. simpl. eexists. split; [done |]. split.
  - apply shaped_insert; [done |]. by rewrite length_insert.
  - intros i' Hi'. by rewrite list_lookup_insert_ne.
Qed.

Lemma swapRows_returns n k aug col maxRow :
  shaped n k aug → col < n → maxRow < n →
  ∃ aug', swapRows aug col maxRow = Returned aug' ∧ shaped n k aug'.
Proof.
  intros HM Hc Hm.
  destruct (shaped_lookup n k aug col) as (rc & Hrc & Hlc); [done.. |].
  destruct (shaped_lookup n k aug maxRow) as (rm & Hrm & Hlm); [done.. |].
  unfold swapRows, getRow. rewrite Hrm, Hrc. simpl. eexists. split; [done |].
  by do 2 (apply shaped_insert; [| done]).
Qed.

Lemma findPivot_returns n col aug :
  shaped n (S n) aug → col < n →
  ∃ maxRow, findPivot n col aug = Returned maxRow ∧ col ≤ maxRow < n.
Proof.
  intros HM Hc. unfold findPivot.
  apply (foldM_inv (λ m, col ≤ m < n)); [lia |].
  intros m row Hrow%elem_of_seq Hm.
  destruct (at2_returns n (S n) aug row col) as (a & ->); [done | lia | lia |].
  destruct (at2_returns n (S n) aug m col) as (v & ->); [done | lia | lia |].
  simpl. eexists. split; [done |]. destruct (nlt _ _); lia.
Qed.

End Shapes.

(** ** Totality of the solver, for any arithmetic whose guarded divisions
    complete *)

Section Totality.
Context {num : Type} {N : JsNumber num}.
Implicit Types (M aug A : list (list num)) (x : list num).

(** A divisor that passed the [1e-12] test has a quotient. *)
Hypothesis div_guarded :
  ∀ a p, nlt (nabs p) lit_1e12 = false → ∃ q, ndiv a p = Returned q.
(** The literal [255] has a quotient. *)
Hypothesis div_255 : ∀ a, ∃ q, ndiv a (lit 255) = Returned q.

Lemma at2_row_eq M M' i j : M' !! i = M !! i → at2 M' i j = at2 M i j.
Proof. intros H. unfold at2, getRow. by rewrite H. Qed.

Lemma eliminateRow_returns n col aug row p :
  shaped n (S n) aug → col < row < n →
  at2 aug col col = Returned p → nlt (nabs p) lit_1e12 = false →
  ∃ aug', eliminateRow n col aug row = Returned aug' ∧
          shaped n (S n) aug' ∧ aug' !! col = aug !! col.
Proof.
  intros HM Hrow Hp Hbig. unfold eliminateRow.
  destruct (at2_returns n (S n) aug row col) as (a & ->); [done | lia | lia |].
  rewrite Hp. simpl.
  destruct (div_guarded a p Hbig) as (factor & ->). simpl.
  apply (foldM_inv (λ aug', shaped n (S n) aug' ∧ aug' !! col = aug !! col));
    [done |].
  intros aug' j Hj%elem_of_seq [HM' Hcol].
  destruct (at2_returns n (S n) aug' row j) as (v & ->); [done | lia | lia |].
  destruct (at2_returns n (S n) aug' col j) as (c & ->); [done | lia | lia |].
  simpl.
  destruct (setAt_returns n (S n) aug' row j (nsub v (nmul factor c)))
    as (aug'' & -> & HM'' & Hother); [done | lia |].
  eexists. split; [done |]. split; [done |].
  rewrite Hother by lia. done.
Qed.

Lemma elimStep_returns n aug col :
  shaped n (S n) aug → col < n →
  ∃ aug', elimStep n aug col = Returned aug' ∧ shaped n (S n) aug'.
Proof.
  intros HM Hc. unfold elimStep.
  destruct (findPivot_returns n col aug) as (maxRow & -> & Hmax); [done.. |].
  simpl.
  destruct (swapRows_returns n (S n) aug col maxRow) as (aug1 & -> & HM1);
    [done | done | lia |].
  simpl.
  destruct (at2_returns n (S n) aug1 col col) as (p & Hp); [done | lia | lia |].
  rewrite Hp. simpl.
  destruct (nlt (nabs p) lit_1e12) eqn:Hsmall; [eauto |].
  destruct (foldM_inv
              (λ aug', shaped n (S n) aug' ∧ at2 aug' col col = Returned p)
              (eliminateRow n col) (seq (S col) (n - S col)) aug1)
    as (aug' & Hfold & HM' & _); [done | | eauto].
  intros aug' row Hrow%elem_of_seq [HM' Hp'].
  destruct (eliminateRow_returns n col aug' row p) as (aug'' & -> & HM'' & Hcol);
    [done | lia | done | done |].
  eexists. split; [done |]. split; [done |].
  by rewrite (at2_row_eq aug' aug'').
Qed.

Lemma forwardElimination_returns n aug :
  shaped n (S n) aug →
  ∃ aug', forwardElimination n aug = Returned aug' ∧ shaped n (S n) aug'.
Proof.
  intros HM. unfold forwardElimination.
  apply (foldM_inv (shaped n (S n))); [done |].
  intros aug' col Hcol%elem_of_seq HM'. apply elimStep_returns; [done | lia].
Qed.

Lemma backStep_returns n aug x i :
  shaped n (S n) aug → i < n → length x = n →
  ∃ x', backStep n aug x i = Returned x' ∧ length x' = n.
Proof.
  intros HM Hi Hx. unfold backStep.
  destruct (at2_returns n (S n) aug i i) as (d & Hd); [done | lia | lia |].
  rewrite Hd. simpl.
  destruct (nlt (nabs d) lit_1e12) eqn:Hsmall.
  { eexists. split; [done |]. by rewrite length_insert. }
  destruct (at2_returns n (S n) aug i n) as (rhs & ->); [done | lia | lia |].
  simpl.
  match goal with |- context [foldM ?f ?l ?b] =>
    destruct (foldM_inv (λ x', length x' = n) f l b) as (x1 & -> & Hx1)
  end.
  { by rewrite length_insert. }
  { intros x' j Hj%elem_of_seq Hx'.
    destruct (getNum_lt x' i) as (xi & _ & ->); [lia |].
    destruct (at2_returns n (S n) aug i j) as (a & ->); [done | lia | lia |].
    destruct (getNum_lt x' j) as (xj & _ & ->); [lia |].
    simpl. eexists. split; [done |]. by rewrite length_insert. }
  simpl. destruct (getNum_lt x1 i) as (xi & _ & ->); [lia |].
  simpl. destruct (div_guarded xi d Hsmall) as (q & ->). simpl.
  eexists. split; [done |]. by rewrite length_insert.
Qed.

Lemma backSubstitute_returns n aug :
  shaped n (S n) aug →
  ∃ x, backSubstitute n aug = Returned x ∧ length x = n.
Proof.
  intros HM. unfold backSubstitute.
  apply (foldM_inv (λ x, length x = n)); [by rewrite length_replicate |].
  intros x i Hi Hx.
  apply list_elem_of_In, in_rev, list_elem_of_In, elem_of_seq in Hi.
  apply backStep_returns; [done | lia | done].
Qed.

Lemma augment_returns n A (b : list num) :
  shaped n n A → n ≤ length b →
  ∃ aug, augment A b = Returned aug ∧ shaped n (S n) aug.
Proof.
  intros [Hn Hrows] Hb. unfold augment.
  destruct (mapMi_returns (λ row row', length row' = S (length row))
              (λ i row, bi ← getNum b i; Returned (row ++ [bi])) A 0)
    as (aug & -> & Haug).
  { intros i row Hi. apply lookup_lt_Some in Hi.
    destruct (getNum_lt b i) as (bi & _ & Hbi); [lia |].
    simpl. rewrite Hbi. simpl. eexists. split; [done |].
    rewrite length_app. simpl. lia. }
  exists aug. split; [done |]. split.
  - apply Forall2_length in Haug. lia.
  - eapply Forall2_Forall_r; [exact Haug |].
    eapply Forall_impl; [exact Hrows |]. simpl. intros row -> row' ->. done.
Qed.

Lemma solveLinearSystem_returns A (b : list num) :
  shaped (length A) (length A) A → length A ≤ length b →
  ∃ x, solveLinearSystem A b = Returned x ∧ length x = length A.
Proof.
  intros HA Hb. unfold solveLinearSystem.
  destruct (augment_returns (length A) A b) as (aug & -> & Haug); [done.. |].
  simpl.
  destruct (forwardElimination_returns (length A) aug) as (aug' & -> & Haug');
    [done |].
  simpl. by apply backSubstitute_returns.
Qed.

Lemma ATA_entry_returns m A i j :
  Forall (λ row, length row = m) A → i < m → j < m →
  ∃ v, ATA_entry A i j = Returned v.
Proof.
  intros HA Hi Hj. unfold ATA_entry.
  destruct (foldM_inv (λ _, True)
              (λ sum row, ri ← getNum row i; rj ← getNum row j;
                          Returned (nadd sum (nmul ri rj)))
              A (lit 0)) as (v & Hv & _); [done | | eauto].
  intros sum row Hrow _. rewrite Forall_forall in HA. apply HA in Hrow.
  destruct (getNum_lt row i) as (ri & _ & ->); [lia |].
  destruct (getNum_lt row j) as (rj & _ & ->); [lia |].
  simpl. eauto.
Qed.

Lemma ATb_entry_returns m A (b : list num) i :
  Forall (λ row, length row = m) A → length A ≤ length b → i < m →
  ∃ v, ATb_entry A b i = Returned v.
Proof.
  intros HA Hb Hi. unfold ATb_entry.
  destruct (foldMi_inv (λ _, True)
              (λ sum k row, ri ← getNum row i; bk ← getNum b k;
                            Returned (nadd sum (nmul ri bk)))
              A 0 (lit 0)) as (v & Hv & _); [done | | eauto].
  intros sum k row Hrow _. simpl.
  pose proof (lookup_lt_Some _ _ _ Hrow) as Hk.
  eapply Forall_lookup_1 in HA; [| exact Hrow]. simpl in HA.
  destruct (getNum_lt row i) as (ri & _ & ->); [lia |].
  destruct (getNum_lt b k) as (bk & _ & ->); [lia |].
  simpl. eauto.
Qed.

Lemma regularize_returns m M :
  shaped m m M → ∃ M', regularize m M = Returned M' ∧ shaped m m M'.
Proof.
  intros HM. unfold regularize. apply (foldM_inv (shaped m m)); [done |].
  intros M' i Hi%elem_of_seq HM'.
  destruct (at2_returns m m M' i i) as (v & ->); [done | lia | lia |].
  simpl.
  destruct (setAt_returns m m M' i i (nadd v lit_1e10)) as (M'' & -> & ? & _);
    [done | lia |].
  eauto.
Qed.

Lemma solveLeastSquares_returns m A (b : list num) :
  A ≠ [] → Forall (λ row, length row = m) A → length A ≤ length b →
  ∃ w, solveLeastSquares A b = Returned w ∧ length w = m.
Proof.
  intros Hne HA Hb. unfold solveLeastSquares, buildATA, buildATb.
  destruct A as [|row0 A']; [done |].
  pose proof (Forall_inv HA) as Hm. simpl in Hm.
  simpl getRow. simpl. rewrite Hm.
  destruct (mapMo_returns (λ _ row, length row = m)
              (λ i, mapMo (λ j, ATA_entry (row0 :: A') i j) (seq 0 m))
              (seq 0 m)) as (ATA & -> & HATA).
  { intros i Hi%elem_of_seq.
    destruct (mapMo_returns (λ _ _, True)
                (λ j, ATA_entry (row0 :: A') i j) (seq 0 m))
      as (row & -> & Hrow).
    { intros j Hj%elem_of_seq.
      destruct (ATA_entry_returns m (row0 :: A') i j) as (v & ->);
        [done | lia | lia |]. eauto. }
    eexists. split; [done |].
    apply Forall2_length in Hrow. rewrite length_seq in Hrow. done. }
  simpl.
  destruct (mapMo_returns (λ _ _, True)
              (λ i, ATb_entry (row0 :: A') b i) (seq 0 m))
    as (ATb & -> & HATb).
  { intros i Hi%elem_of_seq.
    destruct (ATb_entry_returns m (row0 :: A') b i) as (v & ->);
      [done | done | lia |]. eauto. }
  simpl.
  assert (shaped m m ATA) as Hsh.
  { split.
    - apply Forall2_length in HATA. rewrite length_seq in HATA. done.
    - eapply Forall2_Forall_r; [exact HATA |]. by apply Forall_forall. }
  destruct (regularize_returns m ATA Hsh) as (ATA' & -> & [Hlen Hrows]).
  simpl.
  apply Forall2_length in HATb. rewrite length_seq in HATb.
  destruct (solveLinearSystem_returns ATA' ATb) as (w & -> & Hw).
  { rewrite Hlen. by split. }
  { lia. }
  exists w. split; [done | lia].
Qed.

Lemma normalize_returns c :
  ∃ v, normalize c = Returned v ∧ length v = 3.
Proof.
  unfold normalize.
  destruct (div_255 (lit (r c))) as (cr & ->).
  destruct (div_255 (lit (g c))) as (cg & ->).
  destruct (div_255 (lit (b c))) as (cb & ->).
  simpl. eauto.
Qed.

Lemma normalize_all_returns (colors : list color) :
  ∃ rows, mapMo normalize colors = Returned rows ∧
          length rows = length colors ∧ Forall (λ row, length row = 3) rows.
Proof.
  destruct (mapMo_returns (λ _ row, length row = 3) normalize colors)
    as (rows & -> & Hrows).
  { intros c _. apply normalize_returns. }
  exists rows. split; [done |]. split.
  - apply Forall2_length in Hrows. lia.
  - eapply Forall2_Forall_r; [exact Hrows |]. by apply Forall_forall.
Qed.

(** The rescaling divides by [|rowSum|] only after [|rowSum| > maxSum]. *)
Variable maxSum : num.
Hypothesis div_scale :
  ∀ s, nlt maxSum (nabs s) = true → ∃ q, ndiv maxSum (nabs s) = Returned q.

Lemma preventClip_returns (row : list num) :
  ∃ row', preventClip maxSum row = Returned row' ∧ length row' = length row.
Proof.
  unfold preventClip. destruct (nlt maxSum (nabs (rowSum row))) eqn:Hbig.
  - destruct (div_scale _ Hbig) as (scale & ->). simpl.
    eexists. split; [done |]. by rewrite length_map.
  - eauto.
Qed.

Lemma channelRow_returns src tgt preventClipping channel :
  src ≠ [] → Forall (λ row, length row = 3) src →
  Forall (λ row, length row = 3) tgt → length src ≤ length tgt →
  channel < 3 →
  ∃ row, channelRow src tgt preventClipping maxSum channel = Returned row ∧
         length row = 3.
Proof.
  intros Hne Hsrc Htgt Hlen Hch. unfold channelRow.
  destruct (mapMo_returns (λ _ _, True) (λ t, getNum t channel) tgt)
    as (targetValues & -> & Htv).
  { intros t Ht. rewrite Forall_forall in Htgt. apply Htgt in Ht.
    destruct (getNum_lt t channel) as (v & _ & ->); [lia |]. eauto. }
  simpl. apply Forall2_length in Htv.
  destruct (solveLeastSquares_returns 3 src targetValues) as (w & -> & Hw);
    [done | done | lia |].
  simpl.
  destruct preventClipping.
  - destruct (preventClip_returns (map (λ w, nmul w (lit 100)) w))
      as (row' & -> & Hrow').
    simpl. eexists. split; [done |].
    rewrite length_map, Hrow', length_map. done.
  - simpl. eexists. split; [done |]. by rewrite !length_map.
Qed.

Lemma compute_returns sourceColors targetColors preventClipping :
  sourceColors ≠ [] → length sourceColors ≤ length targetColors →
  ∃ M, computeChannelSwapperMatrix sourceColors targetColors
         preventClipping maxSum = Returned M ∧ shaped 3 3 M.
Proof.
  intros Hne Hlen. unfold computeChannelSwapperMatrix.
  destruct (normalize_all_returns sourceColors) as (src & -> & Hls & Hsrc).
  destruct (normalize_all_returns targetColors) as (tgt & -> & Hlt & Htgt).
  cbn [mbind outcome_bind].
  destruct (mapMo_returns (λ _ row, length row = 3)
              (channelRow src tgt preventClipping maxSum) (seq 0 3))
    as (M & -> & HM).
  { intros ch Hch%elem_of_seq. apply channelRow_returns; try done; [| lia..].
    intros ->. destruct sourceColors; done. }
  exists M. split; [done |]. split.
  - by apply Forall2_length in HM.
  - eapply Forall2_Forall_r; [exact HM |]. by apply Forall_forall.
Qed.

End Totality.

(** ** Exact arithmetic: order and guarded divisions *)

Lemma Qc_ltb_lt (a b : Qc) : Qc_ltb a b = true ↔ (a < b)%Qc.
Proof.
  unfold Qc_ltb, Qclt. rewrite negb_true_iff. split.
  - intros H. apply Qnot_le_lt. intros Hle. apply Qle_bool_iff in Hle. congruence.
  - intros H. destruct (Qle_bool b a) eqn:E; [| done].
    apply Qle_bool_iff in E. by apply Qlt_not_le in H.
Qed.

Lemma Qc_ltb_ge (a b : Qc) : Qc_ltb a b = false ↔ (b ≤ a)%Qc.
Proof.
  unfold Qc_ltb, Qcle. rewrite negb_false_iff. apply Qle_bool_iff.
Qed.

Lemma Qc_abs_nonneg (a : Qc) : (0 ≤ Qc_abs a)%Qc.
Proof.
  unfold Qc_abs. destruct (Qc_ltb a 0) eqn:E.
  - apply Qc_ltb_lt in E. apply Qclt_le_weak in E.
    apply Qcopp_le_compat in E. exact E.
  - by apply Qc_ltb_ge in E.
Qed.

Lemma Qc_abs_zero (a : Qc) : Qc_abs a = 0%Qc → a = 0%Qc.
Proof.
  unfold Qc_abs. destruct (Qc_ltb a 0); [| done].
  intros H. rewrite <- (Qcopp_involutive a), H. done.
Qed.

Lemma Qc_div_nonzero (a p : Qc) : p ≠ 0%Qc → Qc_div a p = Returned (a / p)%Qc.
Proof.
  intros Hp. unfold Qc_div. destruct (Qc_eq_bool p 0) eqn:E; [| done].
  by apply Qc_eq_bool_correct in E.
Qed.

Lemma exact_div_guarded (a p : Qc) :
  nlt (nabs p) lit_1e12 = false → ∃ q, ndiv a p = Returned q.
Proof.
  simpl. intros Hbig. exists (a / p)%Qc. apply Qc_div_nonzero.
  intros ->. vm_compute in Hbig. discriminate.
Qed.

Lemma exact_div_255 (a : Qc) : ∃ q, ndiv a (lit 255) = Returned q.
Proof. exists (a / lit 255)%Qc. by apply Qc_div_nonzero. Qed.

Lemma exact_div_scale (maxSum s : Qc) :
  (0 ≤ maxSum)%Qc → nlt maxSum (nabs s) = true →
  ndiv maxSum (nabs s) = Returned (maxSum / Qc_abs s)%Qc.
Proof.
  simpl. intros Hmax Hbig%Qc_ltb_lt. apply Qc_div_nonzero. intros Hz.
  rewrite Hz in Hbig. by apply Qclt_not_le in Hbig.
Qed.

(** ** What a returned matrix is made of *)

Lemma mapMo_Forall {A B : Type} (P : B → Prop) (f : A → outcome B)
    (l : list A) (bs : list B) :
  (∀ a b, a ∈ l → f a = Returned b → P b) →
  mapMo f l = Returned bs → Forall P bs.
Proof.
  revert bs. induction l as [|a l IH]; intros bs Hf; simpl.
  - intros [= <-]. constructor.
  - destruct (f a) as [b0| |] eqn:Hb; simpl; try done.
    destruct (mapMo f l) as [bs0| |] eqn:Hbs; simpl; try done.
    intros [= <-]. constructor.
    + apply (Hf a); [left | done].
    + apply IH; [| done]. intros a' b' Ha'. apply Hf. by right.
Qed.

Section Clamped.
Context {num : Type} {N : JsNumber num}.

Lemma channelRow_clamped src tgt preventClipping (maxSum : num) channel row :
  channelRow src tgt preventClipping maxSum channel = Returned row →
  ∃ row0, row = map clamp row0.
Proof.
  unfold channelRow.
  destruct (mapMo _ tgt) as [tv| |]; simpl; try done.
  destruct (solveLeastSquares src tv) as [w| |]; simpl; try done.
  destruct (if preventClipping then _ else _) as [row0| |]; simpl; try done.
  intros [= <-]. eauto.
Qed.

Lemma compute_clamped sourceColors targetColors preventClipping
    (maxSum : num) M :
  computeChannelSwapperMatrix sourceColors targetColors preventClipping
    maxSum = Returned M →
  Forall (λ row, ∃ row0, row = map clamp row0) M.
Proof.
  unfold computeChannelSwapperMatrix.
  destruct (mapMo normalize sourceColors) as [src| |];
    cbn [mbind outcome_bind]; try done.
  destruct (mapMo normalize targetColors) as [tgt| |];
    cbn [mbind outcome_bind]; try done.
  apply mapMo_Forall. intros ch row _. apply channelRow_clamped.
Qed.

End Clamped.

Lemma clamp_in_range (v : Qc) : in_range (clamp v).
Proof.
  unfold clamp, in_range. simpl.
  set (lo := Q2Qc (inject_Z (-200))). set (hi := Q2Qc (inject_Z 200)).
  assert (lo ≤ hi)%Qc as Hlohi by (by vm_compute).
  destruct (Qc_ltb v hi) eqn:E1.
  - apply Qc_ltb_lt, Qclt_le_weak in E1.
    destruct (Qc_ltb lo v) eqn:E2.
    + apply Qc_ltb_lt, Qclt_le_weak in E2. done.
    + split; [apply Qcle_refl | done].
  - destruct (Qc_ltb lo hi) eqn:E2.
    + split; [done | apply Qcle_refl].
    + split; [apply Qcle_refl | done].
Qed.

(** ** The matrix solver on every valid input *)

Lemma compute_exact_returns sourceColors targetColors preventClipping
    (maxSum : Qc) :
  (0 ≤ maxSum)%Qc →
  sourceColors ≠ [] → length sourceColors = length targetColors →
  ∃ M, computeChannelSwapperMatrix sourceColors targetColors preventClipping
         maxSum = Returned M ∧ shaped 3 3 M.
Proof.
  intros Hmax Hne Hlen.
  apply (compute_returns exact_div_guarded exact_div_255); [| done | lia].
  intros s Hs. rewrite (exact_div_scale maxSum s Hmax Hs). eauto.
Qed.

(** In binary64 no division stops the computation: the source never throws
    on a non-empty input with at least as many targets as sources. *)
Lemma compute_binary64_returns sourceColors targetColors preventClipping
    (maxSum : float) :
  sourceColors ≠ [] → length sourceColors = length targetColors →
  ∃ M, computeChannelSwapperMatrix sourceColors targetColors preventClipping
         maxSum = Returned M ∧ shaped 3 3 M.
Proof.
  intros Hne Hlen. apply compute_returns; [| | | done | lia]; simpl; eauto.
Qed.

(** C3. For every non-empty pair of equal-length lists of colours (well
    formed or not, identical or not) [computeChannelSwapperMatrix] returns
    a matrix of three rows of three entries.  In exact arithmetic a
    division by zero would end the computation as [NonFinite] and a missing
    row as [Threw TypeError]; the result is [Returned], so every divisor
    (the pivot, the diagonal entry, [|rowSum|], 255) was non-zero. *)
Theorem solver_total sourceColors targetColors preventClipping :
  sourceColors ≠ [] → length sourceColors = length targetColors →
  Forall well_formed sourceColors → Forall well_formed targetColors →
  ∃ M : list (list Qc),
    computeChannelSwapperMatrix sourceColors targetColors preventClipping
      (lit 100) = Returned M ∧
    length M = 3 ∧ Forall (λ row, length row = 3) M.
Proof.
  intros Hne Hlen _ _.
  apply (compute_exact_returns _ _ _ (lit 100)); [by vm_compute | done..].
Qed.

(** C2. For every non-empty pair of equal-length lists of well-formed
    colours and either value of [preventClipping], every entry of the
    returned matrix lies in [-200, 200]. *)
Theorem clamp_invariant sourceColors targetColors preventClipping :
  sourceColors ≠ [] → length sourceColors = length targetColors →
  Forall well_formed sourceColors → Forall well_formed targetColors →
  ∃ M : list (list Qc),
    computeChannelSwapperMatrix sourceColors targetColors preventClipping
      (lit 100) = Returned M ∧
    Forall (Forall in_range) M.
Proof.
  intros Hne Hlen _ _.
  destruct (compute_exact_returns sourceColors targetColors preventClipping
              (lit 100)) as (M & HM & _); [by vm_compute | done.. |].
  exists M. split; [done |].
  eapply Forall_impl; [exact (compute_clamped _ _ _ _ _ HM) |].
  simpl. intros row (row0 & ->). apply Forall_forall.
  intros v (v0 & -> & _)%list_elem_of_fmap. apply clamp_in_range.
Qed.

(** C9. On the empty input the first read, [A[0].length] in
    [solveLeastSquares], throws: no matrix is returned, in either
    arithmetic and for every setting. *)
Theorem empty_input_throws {num : Type} {N : JsNumber num}
    (preventClipping : bool) (maxSum : num) :
  computeChannelSwapperMatrix [] [] preventClipping maxSum = Threw TypeError.
Proof. reflexivity. Qed.

(** ** Scenario A *)

(** C4. One pair, pure red to pure green, no clipping prevention: the Red
    and Blue rows are exactly zero and the Green row is (100/(1+1e-10), 0, 0)
    percent, within 1e-7 of (100, 0, 0).  The weights of each row solve the
    regularised normal equations of its channel exactly (all nine residuals
    are zero).  In binary64 the Green row is (99.999999989999992, 0, 0). *)
Theorem scenario_A :
  fractions (computeChannelSwapperMatrix [rgb 255 0 0] [rgb 0 255 0] false
               (lit 100))
  = Returned [[0; 0; 0]; [1000000000000 # 10000000001; 0; 0]; [0; 0; 0]]%Q
  ∧ (Qabs ((1000000000000 # 10000000001) - 100) < 1 # 10000000)%Q
  ∧ fractions (M ← computeChannelSwapperMatrix [rgb 255 0 0] [rgb 0 255 0]
                     false (lit 100);
               Returned (referenceResiduals [rgb 255 0 0] [rgb 0 255 0] M))
    = Returned [[0; 0; 0]; [0; 0; 0]; [0; 0; 0]]%Q
  ∧ computeChannelSwapperMatrix (N:=binary64) [rgb 255 0 0] [rgb 0 255 0]
      false (lit 100)
    = Returned [[0; 0; 0]; [99.999999989999992; 0; 0]; [0; 0; 0]]%float.
Proof.
  split; [by vm_compute |]. split; [by vm_compute |].
  split; [by vm_compute |]. by vm_compute.
Qed.

(** ** Clipping prevention and the final clamp *)

Lemma rowSum_scale (row : list Qc) (c a : Qc) :
  fold_left Qcplus (map (λ v, v * c)%Qc row) (a * c)%Qc
  = (fold_left Qcplus row a * c)%Qc.
Proof.
  revert a. induction row as [|v row IH]; intros a; simpl; [done |].
  rewrite <- IH. f_equal. ring.
Qed.

(** Before the clamp, the rescaled row keeps its sum within [maxSum]. *)
Lemma preventClip_bounds (maxSum : Qc) (row row' : list Qc) :
  (0 ≤ maxSum)%Qc → preventClip maxSum row = Returned row' →
  (Qc_abs (rowSum row') ≤ maxSum)%Qc.
Proof.
  intros Hmax. unfold preventClip.
  destruct (nlt maxSum (nabs (rowSum row))) eqn:Hbig.
  - rewrite (exact_div_scale _ _ Hmax Hbig). simpl. intros [= <-].
    unfold rowSum in *. simpl in *.
    change (Q2Qc (inject_Z 0)) with 0%Qc in *.
    set (s := fold_left Qcplus row 0%Qc) in *.
    replace 0%Qc with (0 * (maxSum / Qc_abs s))%Qc at 1 by ring.
    rewrite rowSum_scale. fold s.
    assert (Qc_abs s ≠ 0%Qc) as Hnz.
    { apply Qc_ltb_lt in Hbig. intros Hz.
      rewrite Hz in Hbig. by apply Qclt_not_le in Hbig. }
    assert (s * (maxSum / Qc_abs s) = maxSum ∨ s * (maxSum / Qc_abs s) = - maxSum)%Qc
      as [-> | ->].
    { revert Hnz. unfold Qc_abs. destruct (Qc_ltb s 0); intros Hnz.
      - right. field. intros Hs. apply Hnz. rewrite Hs. ring.
      - left. field. done. }
    + unfold Qc_abs. destruct (Qc_ltb maxSum 0) eqn:E; [| apply Qcle_refl].
      apply Qc_ltb_lt in E. by apply Qclt_not_le in E.
    + unfold Qc_abs. destruct (Qc_ltb (- maxSum) 0) eqn:E.
      * rewrite Qcopp_involutive. apply Qcle_refl.
      * apply Qcle_trans with (y := 0%Qc); [| done].
        exact (Qcopp_le_compat _ _ Hmax).
  - intros [= <-]. simpl in Hbig. by apply Qc_ltb_ge in Hbig.
Qed.

Lemma clamp_fixes_in_range (v : Qc) : in_range v → clamp v = v.
Proof.
  unfold clamp, in_range. simpl. intros [Hlo Hhi].
  destruct (Qc_ltb v (Q2Qc (inject_Z 200))) eqn:E1.
  - destruct (Qc_ltb (Q2Qc (inject_Z (-200))) v) eqn:E2; [done |].
    apply Qc_ltb_ge in E2. by apply Qcle_antisym.
  - apply Qc_ltb_ge in E1.
    assert (v = Q2Qc (inject_Z 200)) as -> by (by apply Qcle_antisym).
    done.
Qed.

(** With clipping prevention on, the row a channel returns is the clamp of
    a row whose sum is within [maxSum]; the two rows are the same when the
    clamp has nothing to cut. *)
Lemma channelRow_sum_before_clamp src tgt (maxSum : Qc) channel row :
  (0 ≤ maxSum)%Qc →
  channelRow src tgt true maxSum channel = Returned row →
  ∃ row0, row = map clamp row0 ∧ (Qc_abs (rowSum row0) ≤ maxSum)%Qc
          ∧ (Forall in_range row0 → row = row0).
Proof.
  intros Hmax. unfold channelRow.
  destruct (mapMo _ tgt) as [tv| |]; simpl; try done.
  destruct (solveLeastSquares src tv) as [w| |]; simpl; try done.
  destruct (preventClip maxSum _) as [row0| |] eqn:Hclip; simpl; try done.
  intros [= <-]. exists row0. split; [done |]. split.
  - by apply (preventClip_bounds maxSum _ row0 Hmax Hclip).
  - intros Hin. rewrite <- (map_id row0) at 2. apply map_ext_Forall.
    eapply Forall_impl; [exact Hin |]. apply clamp_fixes_in_range.
Qed.

(** C1 (the source breaks it). With clipping prevention on, three
    well-formed pairs give rows whose sums are about 200, twice [maxSum]:
    the row (-300, 200, 200) has sum 100 and is not rescaled by more than
    1e-8, and the clamp that follows raises its first entry to -200.  Exact
    arithmetic and binary64 agree to seven digits. *)
Theorem clamp_breaks_row_sum :
  Forall well_formed steepSources ∧ Forall well_formed steepTargets
  ∧ fractions (computeChannelSwapperMatrix steepSources steepTargets true
                 (lit 100))
    = Returned [[-200; 7272727300 # 36363637; 7272727300 # 36363637];
                [-200; 7272727300 # 36363637; 7272727300 # 36363637];
                [-200; 7272727300 # 36363637; 7272727300 # 36363637]]%Q
  ∧ (100 < Qabs (-200 + (7272727300 # 36363637) + (7272727300 # 36363637)))%Q
  ∧ computeChannelSwapperMatrix (N:=binary64) steepSources steepTargets true
      (lit 100)
    = Returned [[-200; 199.99999725000004; 199.99999725000004];
                [-200; 199.99999725000004; 199.99999725000004];
                [-200; 199.99999725000004; 199.99999725000004]]%float.
Proof.
  split; [repeat constructor; by vm_compute |].
  split; [repeat constructor; by vm_compute |].
  split; [by vm_compute |]. split; [by vm_compute |]. by vm_compute.
Qed.

(** ** Singular pivots and diagonal entries *)

Lemma foldM_preserves {A B : Type} (P : B → Prop) (f : B → A → outcome B)
    (l : list A) (b b' : B) :
  (∀ b a b', a ∈ l → f b a = Returned b' → P b → P b') →
  foldM f l b = Returned b' → P b → P b'.
Proof.
  revert b. induction l as [|a l IH]; intros b Hf; simpl.
  - by intros [= <-].
  - destruct (f b a) as [b1| |] eqn:Hb1; simpl; try done.
    intros Hfold Hb. apply (IH b1); [| done |].
    + intros b2 a2 b3 Ha2. apply Hf. by right.
    + apply (Hf b a); [left | done..].
Qed.

Section Singular.
Context {num : Type} {N : JsNumber num}.
Implicit Types (aug : list (list num)) (x : list num).

Lemma elimStep_skips n aug col maxRow aug1 p :
  findPivot n col aug = Returned maxRow →
  swapRows aug col maxRow = Returned aug1 →
  at2 aug1 col col = Returned p →
  nlt (nabs p) lit_1e12 = true →
  elimStep n aug col = Returned aug1.
Proof.
  intros Hpivot Hswap Hp Hsmall. unfold elimStep.
  rewrite Hpivot. simpl. rewrite Hswap. simpl. rewrite Hp. simpl.
  by rewrite Hsmall.
Qed.

Lemma backStep_default n aug x i d :
  at2 aug i i = Returned d → nlt (nabs d) lit_1e12 = true →
  backStep n aug x i = Returned (<[i := (if Nat.eqb i 0 then lit 1 else lit 0)]> x).
Proof.
  intros Hd Hsmall. unfold backStep. rewrite Hd. simpl. by rewrite Hsmall.
Qed.

(** An iteration of back substitution writes [x[i]] and nothing else. *)
Lemma backStep_frame n aug x i x' :
  backStep n aug x i = Returned x' →
  length x' = length x ∧ ∀ j, j ≠ i → x' !! j = x !! j.
Proof.
  unfold backStep.
  destruct (at2 aug i i) as [d| |] eqn:Hd; simpl; try done.
  destruct (nlt (nabs d) lit_1e12).
  { intros [= <-]. split; [by rewrite length_insert |].
    intros j Hj. by rewrite list_lookup_insert_ne. }
  destruct (at2 aug i n) as [rhs| |]; simpl; try done.
  match goal with |- context [foldM ?f ?l ?b] =>
    destruct (foldM f l b) as [x1| |] eqn:Hfold; simpl; try done;
    pose proof (foldM_preserves
      (λ y, length y = length x ∧ ∀ j, j ≠ i → y !! j = x !! j)
      f l b x1) as Hinv
  end.
  destruct Hinv as [Hlen Hother]; [| done | |].
  { intros y j y' _ Hstep [Hly Hy].
    destruct (getNum y i) as [xi| |]; simpl in Hstep; try done.
    destruct (at2 aug i j) as [a| |]; simpl in Hstep; try done.
    destruct (getNum y j) as [xj| |]; simpl in Hstep; try done.
    injection Hstep as <-. split; [by rewrite length_insert |].
    intros j' Hj'. rewrite list_lookup_insert_ne by done. by apply Hy. }
  { split; [by rewrite length_insert |].
    intros j Hj. by rewrite list_lookup_insert_ne. }
  destruct (getNum x1 i) as [xi| |]; simpl; try done.
  destruct (ndiv xi d) as [q| |]; simpl; try done.
  intros [= <-]. split; [by rewrite length_insert |].
  intros j Hj. rewrite list_lookup_insert_ne by done. by apply Hother.
Qed.

Lemma backSteps_default n aug (l : list nat) x0 x i d :
  NoDup l → i ∈ l → i < length x0 →
  at2 aug i i = Returned d → nlt (nabs d) lit_1e12 = true →
  foldM (backStep n aug) l x0 = Returned x →
  x !! i = Some ((if Nat.eqb i 0 then lit 1 else lit 0)).
Proof.
  intros Hnd Hi Hlt Hd Hsmall. revert x0 Hlt.
  induction l as [|i0 l IH]; intros x0 Hlt; simpl; [by apply elem_of_nil in Hi |].
  destruct (backStep n aug x0 i0) as [x1| |] eqn:Hstep; simpl; try done.
  intros Hfold. apply NoDup_cons in Hnd as [Hnotin Hnd].
  destruct (backStep_frame _ _ _ _ _ Hstep) as [Hlen1 Hother1].
  apply elem_of_cons in Hi as [-> | Hi].
  - rewrite (backStep_default n aug x0 i0 d Hd Hsmall) in Hstep.
    injection Hstep as <-.
    refine (foldM_preserves (λ y, y !! i0 = Some ((if Nat.eqb i0 0 then lit 1 else lit 0)))
              _ _ _ _ _ Hfold _).
    + intros y j y' Hj Hy Hyi0.
      destruct (backStep_frame _ _ _ _ _ Hy) as [_ Hother].
      rewrite Hother; [done |]. intros ->. done.
    + by apply list_lookup_insert_eq.
  - apply (IH Hnd Hi x1); [lia | done].
Qed.

(** C6. For any arithmetic (whatever its division does): a column whose
    selected pivot is below 1e-12 in magnitude leaves the column loop with
    the rows only swapped, no row operation applied; an iteration of back
    substitution whose diagonal entry is below 1e-12 stores 1 for the first
    unknown and 0 for the others, with no division; and that value is the
    component of the solution back substitution returns. *)
Theorem singular_entries_skipped :
  (∀ n aug col maxRow aug1 p,
     findPivot n col aug = Returned maxRow →
     swapRows aug col maxRow = Returned aug1 →
     at2 aug1 col col = Returned p →
     nlt (nabs p) lit_1e12 = true →
     elimStep n aug col = Returned aug1)
  ∧ (∀ n aug x i d,
       at2 aug i i = Returned d → nlt (nabs d) lit_1e12 = true →
       backStep n aug x i =
         Returned (<[i := if Nat.eqb i 0 then lit 1 else lit 0]> x))
  ∧ (∀ n aug x i d,
       backSubstitute n aug = Returned x → i < n →
       at2 aug i i = Returned d → nlt (nabs d) lit_1e12 = true →
       x !! i = Some (if Nat.eqb i 0 then lit 1 else lit 0)).
Proof.
  split; [exact elimStep_skips |]. split; [exact backStep_default |].
  intros n aug x i d Hx Hi Hd Hsmall.
  apply (backSteps_default n aug (rev (seq 0 n)) (replicate n (lit 0)) x i d);
    try done.
  - apply NoDup_ListNoDup, List.NoDup_rev, NoDup_ListNoDup, NoDup_seq.
  - apply list_elem_of_In, in_rev. rewrite rev_involutive.
    apply list_elem_of_In, elem_of_seq. lia.
  - by rewrite length_replicate.
Qed.

End Singular.

(** ** The normal equations are sums over the pairs *)

Lemma mapMo_pure {A B : Type} (f : A → outcome B) (h : A → B) (l : list A) :
  (∀ a, a ∈ l → f a = Returned (h a)) → mapMo f l = Returned (map h l).
Proof.
  induction l as [|a l IH]; intros Hf; simpl; [done |].
  rewrite Hf by left. simpl. rewrite IH; [done |].
  intros a' Ha'. apply Hf. by right.
Qed.

Lemma normalize_exact (c : color) : normalize c = Returned (normalized c).
Proof.
  unfold normalize, normalized. change (@ndiv Qc exact) with Qc_div.
  by rewrite !Qc_div_nonzero by done.
Qed.

Lemma getNum_component (channel : nat) (c : color) :
  channel < 3 → getNum (normalized c) channel = Returned (component channel c).
Proof.
  intros H. destruct channel as [|[|[|?]]]; [done.. | lia].
Qed.

Lemma qsum_perm (l l' : list Qc) : l ≡ₚ l' → qsum l = qsum l'.
Proof.
  induction 1 as [|v l l' _ IH|v w l|l l' l'' _ IH1 _ IH2]; simpl.
  - done.
  - by rewrite IH.
  - ring.
  - congruence.
Qed.

Lemma qsum_cons (v : Qc) (l : list Qc) : qsum (v :: l) = (v + qsum l)%Qc.
Proof. reflexivity. Qed.

Lemma ATA_fold_sum (colors : list color) (i j : nat) (a : Qc) :
  i < 3 → j < 3 →
  foldM (λ (sum : Qc) row, ri ← getNum row i; rj ← getNum row j;
                           Returned (nadd sum (nmul ri rj)))
        (map normalized colors) a
  = Returned (a + qsum (map (λ c, component i c * component j c) colors))%Qc.
Proof.
  intros Hi Hj. revert a. induction colors as [|c colors IH]; intros a.
  - simpl. f_equal. ring.
  - cbn [map foldM]. rewrite !getNum_component by done.
    cbn [mbind outcome_bind]. rewrite IH. f_equal.
    cbn [map nadd nmul exact]. rewrite qsum_cons. ring.
Qed.

Lemma ATA_entry_sum (colors : list color) (i j : nat) :
  i < 3 → j < 3 →
  ATA_entry (map normalized colors) i j
  = Returned (qsum (map (λ c, component i c * component j c)%Qc colors)).
Proof.
  intros Hi Hj. unfold ATA_entry. rewrite ATA_fold_sum by done.
  f_equal. change (lit 0) with 0%Qc. ring.
Qed.

Lemma ATb_fold_sum (src tgt : list color) (i channel : nat)
    (pre bs : list Qc) (a : Qc) :
  i < 3 → length src = length tgt →
  bs = pre ++ map (component channel) tgt →
  foldMi (λ (sum : Qc) k row, ri ← getNum row i; bk ← getNum bs k;
                              Returned (nadd sum (nmul ri bk)))
         (length pre) (map normalized src) a
  = Returned (a + qsum (map (λ st, component i st.1 * component channel st.2)
                            (zip src tgt)))%Qc.
Proof.
  intros Hi. revert tgt pre a.
  induction src as [|s src IH]; intros [|t tgt] pre a Hlen Hbs; try done.
  - simpl. f_equal. ring.
  - cbn [map foldMi]. rewrite getNum_component by done.
    cbn [mbind outcome_bind].
    assert (getNum bs (length pre) = Returned (component channel t)) as ->.
    { rewrite Hbs. unfold getNum. cbn [map]. by rewrite list_lookup_middle. }
    cbn [mbind outcome_bind].
    replace (S (length pre)) with (length (pre ++ [component channel t]))
      by (rewrite length_app; simpl; lia).
    rewrite (IH tgt (pre ++ [component channel t])).
    + f_equal. cbn [zip_with map nadd nmul exact fst snd].
      rewrite qsum_cons. ring.
    + simpl in Hlen. lia.
    + rewrite Hbs. cbn [map]. by rewrite <- app_assoc.
Qed.

Lemma ATb_entry_sum (src tgt : list color) (i channel : nat) :
  i < 3 → length src = length tgt →
  ATb_entry (map normalized src) (map (component channel) tgt) i
  = Returned (qsum (map (λ st, component i st.1 * component channel st.2)%Qc
                        (zip src tgt))).
Proof.
  intros Hi Hlen. unfold ATb_entry.
  rewrite (ATb_fold_sum src tgt i channel [] _ _ Hi Hlen eq_refl).
  f_equal. change (lit 0) with 0%Qc. ring.
Qed.

Lemma buildATA_perm (src src' : list color) :
  src ≡ₚ src' →
  buildATA 3 (map normalized src) = buildATA 3 (map normalized src').
Proof.
  intros Hperm. unfold buildATA.
  apply mapMo_ext. intros i Hi%elem_of_seq.
  apply mapMo_ext. intros j Hj%elem_of_seq.
  rewrite !ATA_entry_sum by lia. f_equal.
  apply qsum_perm. by apply Permutation_map.
Qed.

Lemma buildATb_perm (src tgt src' tgt' : list color) (channel : nat) :
  length src = length tgt → length src' = length tgt' →
  zip src tgt ≡ₚ zip src' tgt' →
  buildATb 3 (map normalized src) (map (component channel) tgt)
  = buildATb 3 (map normalized src') (map (component channel) tgt').
Proof.
  intros Hlen Hlen' Hperm. unfold buildATb.
  apply mapMo_ext. intros i Hi%elem_of_seq.
  rewrite !ATb_entry_sum by (done || lia). f_equal.
  apply qsum_perm. by apply Permutation_map.
Qed.

Lemma solveLeastSquares_normalized (src : list color) (bs : list Qc) :
  src ≠ [] →
  solveLeastSquares (map normalized src) bs
  = (ATA ← buildATA 3 (map normalized src);
     ATb ← buildATb 3 (map normalized src) bs;
     ATA ← regularize 3 ATA;
     solveLinearSystem ATA ATb).
Proof. by destruct src. Qed.

Lemma solveLeastSquares_perm (src tgt src' tgt' : list color) (channel : nat) :
  length src = length tgt → length src' = length tgt' →
  zip src tgt ≡ₚ zip src' tgt' →
  solveLeastSquares (map normalized src) (map (component channel) tgt)
  = solveLeastSquares (map normalized src') (map (component channel) tgt').
Proof.
  intros Hlen Hlen' Hperm.
  assert (src ≡ₚ src') as Hsrc.
  { rewrite <- (fst_zip src tgt), <- (fst_zip src' tgt') by lia.
    by apply fmap_Permutation. }
  destruct (decide (src = [])) as [-> | Hne].
  - apply Permutation_nil_l in Hsrc as <-. reflexivity.
  - assert (src' ≠ []) as Hne'.
    { intros ->. by apply Permutation_nil_r in Hsrc. }
    rewrite !solveLeastSquares_normalized by done.
    rewrite (buildATA_perm src src' Hsrc).
    by rewrite (buildATb_perm src tgt src' tgt' channel).
Qed.

Lemma targetValues_exact (tgt : list color) (channel : nat) :
  channel < 3 →
  mapMo (λ t, getNum t channel) (map normalized tgt)
  = Returned (map (component channel) tgt).
Proof.
  intros Hch.
  rewrite (mapMo_pure _ (λ row, nth channel row 0%Qc)).
  - by rewrite map_map.
  - intros row (c & -> & _)%list_elem_of_fmap. by apply getNum_component.
Qed.

(** C5. Shuffling the pairs (one permutation, applied to the sources and
    to the targets alike) does not change the matrix, in exact arithmetic:
    the entries of AᵗA and Aᵗb are sums over the pairs.  It holds for every
    number of pairs, and whatever the colours are. *)
Theorem permutation_invariance (sourceColors targetColors
    sourceColors' targetColors' : list color) (preventClipping : bool)
    (maxSum : Qc) :
  length sourceColors = length targetColors →
  length sourceColors' = length targetColors' →
  zip sourceColors targetColors ≡ₚ zip sourceColors' targetColors' →
  computeChannelSwapperMatrix sourceColors' targetColors' preventClipping maxSum
  = computeChannelSwapperMatrix sourceColors targetColors preventClipping maxSum.
Proof.
  intros Hlen Hlen' Hperm. unfold computeChannelSwapperMatrix.
  rewrite !(mapMo_pure normalize normalized) by (intros; apply normalize_exact).
  cbn [mbind outcome_bind].
  apply mapMo_ext. intros channel Hch%elem_of_seq. unfold channelRow.
  rewrite !targetValues_exact by lia. cbn [mbind outcome_bind].
  by rewrite (solveLeastSquares_perm sourceColors targetColors
                sourceColors' targetColors' channel).
Qed.

(** ** The colour-pair store *)

Lemma ids_addColorPair (st : store) :
  ids (addColorPair st) = ids st ++ [nextPairId st].
Proof. unfold ids, addColorPair. simpl. by rewrite map_app. Qed.

Lemma ids_removeColorPair (i : Z) (st : store) :
  ids (removeColorPair i st) = filter (λ j, j ≠ i) (ids st).
Proof.
  unfold ids, removeColorPair. simpl.
  induction (colorPairs st) as [|p l IH]; [done |].
  rewrite filter_cons. simpl. rewrite filter_cons.
  destruct (decide (id p ≠ i)); simpl; by rewrite IH.
Qed.

Lemma ids_insert_same (l : list pair) (k : nat) (p p' : pair) :
  l !! k = Some p → id p' = id p → map id (<[k := p']> l) = map id l.
Proof.
  intros Hk Hid. change (id <$> <[k := p']> l = id <$> l).
  rewrite list_fmap_insert, Hid. apply list_insert_id.
  by rewrite list_lookup_fmap, Hk.
Qed.

Lemma ids_setSourceForPair (i : Z) (fg : color) (st : store) :
  ids (setSourceForPair i fg st) = ids st.
Proof.
  unfold ids, setSourceForPair.
  destruct (list_find _ _) as [[k p]|] eqn:Hfind; [| done].
  apply list_find_Some in Hfind as (Hk & _ & _). simpl.
  by apply (ids_insert_same _ k p).
Qed.

Lemma ids_setTargetForPair (i : Z) (fg : color) (st : store) :
  ids (setTargetForPair i fg st) = ids st.
Proof.
  unfold ids, setTargetForPair.
  destruct (list_find _ _) as [[k p]|] eqn:Hfind; [| done].
  apply list_find_Some in Hfind as (Hk & _ & _). simpl.
  by apply (ids_insert_same _ k p).
Qed.

Lemma nextPairId_setSourceForPair (i : Z) (fg : color) (st : store) :
  nextPairId (setSourceForPair i fg st) = nextPairId st.
Proof. unfold setSourceForPair. by destruct (list_find _ _) as [[k p]|]. Qed.

Lemma nextPairId_setTargetForPair (i : Z) (fg : color) (st : store) :
  nextPairId (setTargetForPair i fg st) = nextPairId st.
Proof. unfold setTargetForPair. by destruct (list_find _ _) as [[k p]|]. Qed.

Lemma nextPairId_perform (st : store) (a : action) :
  (nextPairId st ≤ nextPairId (perform st a))%Z.
Proof.
  destruct a; simpl;
    rewrite ?nextPairId_setSourceForPair, ?nextPairId_setTargetForPair; lia.
Qed.

Lemma StronglySorted_filter {A : Type} (R : relation A) (P : A → Prop)
    `{!∀ x, Decision (P x)} (l : list A) :
  StronglySorted R l → StronglySorted R (filter P l).
Proof.
  induction 1 as [|x l Hl IH Hx]; [constructor |].
  rewrite filter_cons. destruct (decide (P x)); [| done].
  constructor; [done |]. apply Forall_forall.
  intros y [_ Hy]%list_elem_of_filter. rewrite Forall_forall in Hx. by apply Hx.
Qed.

Lemma StronglySorted_lt_NoDup (l : list Z) : StronglySorted Z.lt l → NoDup l.
Proof.
  induction 1 as [|x l Hl IH Hx]; constructor; [| done].
  intros Hin. rewrite Forall_forall in Hx. apply Hx in Hin. lia.
Qed.

Lemma store_inv_perform (st : store) (a : action) :
  store_inv st → store_inv (perform st a).
Proof.
  intros [Hsorted Hbelow]. destruct a as [|i|i fg|i fg]; simpl.
  - split.
    + rewrite ids_addColorPair. apply StronglySorted_app_2; [| done |].
      * intros x1 x2 Hx1 ->%list_elem_of_singleton.
        rewrite Forall_forall in Hbelow. by apply Hbelow.
      * repeat constructor.
    + rewrite ids_addColorPair. apply Forall_app. split.
      * eapply Forall_impl; [exact Hbelow |]. simpl. intros; lia.
      * repeat constructor. simpl. lia.
  - split; rewrite ids_removeColorPair.
    + by apply StronglySorted_filter.
    + apply Forall_forall. intros j [_ Hj]%list_elem_of_filter.
      rewrite Forall_forall in Hbelow. by apply Hbelow.
  - split; by rewrite ids_setSourceForPair, ?nextPairId_setSourceForPair.
  - split; by rewrite ids_setTargetForPair, ?nextPairId_setTargetForPair.
Qed.

Lemma store_inv_session (actions : list action) (st : store) :
  store_inv st → store_inv (session actions st).
Proof.
  revert st. induction actions as [|a actions IH]; intros st Hst; [done |].
  simpl. by apply IH, store_inv_perform.
Qed.

Lemma ids_perform_old (st : store) (a : action) (i : Z) :
  i ∈ ids (perform st a) → (i < nextPairId st)%Z → i ∈ ids st.
Proof.
  destruct a as [|j|j fg|j fg]; simpl.
  - rewrite ids_addColorPair. intros [?| ->%list_elem_of_singleton]%elem_of_app;
      [done | lia].
  - rewrite ids_removeColorPair. by intros [_ ?]%list_elem_of_filter.
  - by rewrite ids_setSourceForPair.
  - by rewrite ids_setTargetForPair.
Qed.

Lemma ids_session_old (actions : list action) (st : store) (i : Z) :
  i ∈ ids (session actions st) → (i < nextPairId st)%Z → i ∈ ids st.
Proof.
  revert st. induction actions as [|a actions IH]; intros st; [done |].
  simpl. intros Hin Hlt. apply (ids_perform_old st a); [| done].
  apply IH; [done |]. pose proof (nextPairId_perform st a). lia.
Qed.

(** C8. In every state a session reaches from the initial store, the ids
    are strictly increasing in list order, hence pairwise distinct, and all
    below [nextPairId]; an id below the counter that is not in the store
    (a removed pair's id) is in no later state of the session; and removing
    a pair keeps every other pair, with its id, in the same order. *)
Theorem ids_fresh_and_increasing (actions : list action) :
  let st := session actions initialStore in
  StronglySorted Z.lt (ids st)
  ∧ NoDup (ids st)
  ∧ Forall (λ i, (i < nextPairId st)%Z) (ids st)
  ∧ (∀ later i,
       i ∈ ids (session later st) → (i < nextPairId st)%Z → i ∈ ids st)
  ∧ (∀ i, ids (removeColorPair i st) = filter (λ j, j ≠ i) (ids st)
          ∧ ∀ p, p ∈ colorPairs st → id p ≠ i →
                 p ∈ colorPairs (removeColorPair i st)).
Proof.
  intros st.
  assert (store_inv st) as [Hsorted Hbelow].
  { apply store_inv_session. split; constructor. }
  split; [done |]. split; [by apply StronglySorted_lt_NoDup |].
  split; [done |]. split; [intros later i; apply ids_session_old |].
  intros i. split; [apply ids_removeColorPair |].
  intros p Hp Hid. unfold removeColorPair. simpl.
  by apply list_elem_of_filter.
Qed.

(** C10. [setSourceForPair] never changes the counter, the number of
    pairs, their ids or their targets.  When the id is in the store, the
    first pair with that id gets the new source and keeps its id and
    target, and the pair at every other position is the same as before.
    When the id is not in the store, the store is the same as before. *)
Theorem setSourceForPair_frame (i : Z) (fg : color) (st : store) :
  let st' := setSourceForPair i fg st in
  nextPairId st' = nextPairId st
  ∧ length (colorPairs st') = length (colorPairs st)
  ∧ ids st' = ids st
  ∧ map target (colorPairs st') = map target (colorPairs st)
  ∧ (i ∈ ids st →
     ∃ k p, colorPairs st !! k = Some p ∧ id p = i
            ∧ (∀ j q, colorPairs st !! j = Some q → j < k → id q ≠ i)
            ∧ colorPairs st' !! k
              = Some {| id := i; source := Some fg; target := target p |}
            ∧ ∀ j, j ≠ k → colorPairs st' !! j = colorPairs st !! j)
  ∧ (i ∉ ids st → st' = st).
Proof.
  intros st'. split; [apply nextPairId_setSourceForPair |].
  split; [| split; [apply ids_setSourceForPair |]].
  { pose proof (ids_setSourceForPair i fg st) as Hids.
    apply (f_equal length) in Hids. unfold ids in Hids.
    by rewrite !length_map in Hids. }
  subst st'. unfold setSourceForPair, ids.
  destruct (list_find _ _) as [[k p]|] eqn:Hfind; simpl.
  - apply list_find_Some in Hfind as (Hk & Hid & Hfirst).
    split; [| split].
    + change (target <$> <[k := {| id := id p; source := Some fg;
                                  target := target p |}]> (colorPairs st)
              = target <$> colorPairs st).
      rewrite list_fmap_insert. simpl. apply list_insert_id.
      by rewrite list_lookup_fmap, Hk.
    + intros _. exists k, p. split; [done |]. split; [done |].
      split; [exact Hfirst |]. split.
      * rewrite list_lookup_insert_eq by (by eapply lookup_lt_Some).
        by rewrite Hid.
      * intros j Hj. by rewrite list_lookup_insert_ne.
    + intros Hnotin. destruct Hnotin. apply list_elem_of_fmap.
      exists p. split; [done |]. by eapply list_elem_of_lookup_2.
  - split; [done |]. split; [| done].
    intros (p & Hp & Hin)%list_elem_of_fmap.
    apply list_find_None in Hfind. rewrite Forall_forall in Hfind.
    by destruct (Hfind p Hin).
Qed.

(** ** The calculate button *)

Lemma omap_complete_length (l : list pair) :
  Forall complete l →
  length (omap source l) = length l ∧ length (omap target l) = length l.
Proof.
  induction 1 as [|p l [[s Hs] [t Ht]] _ [IHs IHt]]; [done |].
  simpl. rewrite Hs, Ht. simpl.
  change (list_omap pair color) with (@omap list _ pair color).
  by rewrite IHs, IHt.
Qed.

(** C7. With no complete pair in the store the handler shows the text
    asking for one and returns: the solver is not called.  Whenever the
    handler does call the solver, the two lists it passes have one colour
    per complete pair, so they are non-empty and of equal length. *)
Theorem no_complete_pair_is_rejected (st : store) (clippingToggle : bool) :
  (filter complete (colorPairs st) = [] →
   calculateClick st clippingToggle
   = ShowResult "Please add at least one complete color pair (source + target).")
  ∧ (∀ sourceColors targetColors preventClipping,
       calculateClick st clippingToggle
       = CallSolver sourceColors targetColors preventClipping →
       sourceColors ≠ []
       ∧ length sourceColors = length (filter complete (colorPairs st))
       ∧ length targetColors = length sourceColors
       ∧ preventClipping = clippingToggle).
Proof.
  unfold calculateClick. split.
  - by intros ->.
  - intros src tgt pc.
    destruct (omap_complete_length (filter complete (colorPairs st)))
      as [Hs Ht].
    { apply Forall_forall. by intros p [? _]%list_elem_of_filter. }
    destruct (Nat.eqb_spec (length (filter complete (colorPairs st))) 0)
      as [| Hpos]; [done |].
    intros [= <- <- <-]. rewrite Ht, Hs. split; [| done].
    intros Hnil. by rewrite Hnil in Hs.
Qed.

(** ** The statements at concrete inputs *)

Lemma solver_total_witness :
  greySources ≠ [] ∧ length greySources = length greyTargets
  ∧ Forall well_formed greySources ∧ Forall well_formed greyTargets
  ∧ ∃ M : list (list Qc),
      computeChannelSwapperMatrix greySources greyTargets true (lit 100)
      = Returned M
      ∧ length M = 3 ∧ Forall (λ row, length row = 3) M.
Proof.
  assert (Forall well_formed greySources) as Hs
    by (repeat constructor; by vm_compute).
  assert (Forall well_formed greyTargets) as Ht
    by (repeat constructor; by vm_compute).
  split; [done |]. split; [done |]. split; [done |]. split; [done |].
  exact (solver_total greySources greyTargets true
           ltac:(done) eq_refl Hs Ht).
Defined.

Lemma clamp_invariant_witness :
  steepSources ≠ [] ∧ length steepSources = length steepTargets
  ∧ Forall well_formed steepSources ∧ Forall well_formed steepTargets
  ∧ ∃ M : list (list Qc),
      computeChannelSwapperMatrix steepSources steepTargets false (lit 100)
      = Returned M
      ∧ Forall (Forall in_range) M.
Proof.
  assert (Forall well_formed steepSources) as Hs
    by (repeat constructor; by vm_compute).
  assert (Forall well_formed steepTargets) as Ht
    by (repeat constructor; by vm_compute).
  split; [done |]. split; [done |]. split; [done |]. split; [done |].
  exact (clamp_invariant steepSources steepTargets false
           ltac:(done) eq_refl Hs Ht).
Defined.

Lemma permutation_invariance_witness :
  length steepSources = length steepTargets
  ∧ length (reverse steepSources) = length (reverse steepTargets)
  ∧ zip steepSources steepTargets
    ≡ₚ zip (reverse steepSources) (reverse steepTargets)
  ∧ computeChannelSwapperMatrix (reverse steepSources) (reverse steepTargets)
      true (lit 100 : Qc)
    = computeChannelSwapperMatrix steepSources steepTargets true (lit 100).
Proof.
  split; [done |]. split; [done |].
  assert (zip steepSources steepTargets
          ≡ₚ zip (reverse steepSources) (reverse steepTargets)) as Hperm.
  { change (zip steepSources steepTargets
            ≡ₚ reverse (zip steepSources steepTargets)).
    symmetry. apply reverse_Permutation. }
  split; [done |].
  exact (permutation_invariance steepSources steepTargets
           (reverse steepSources) (reverse steepTargets) true (lit 100)
           eq_refl eq_refl Hperm).
Defined.

Lemma singular_entries_skipped_witness :
  at2 rankOne 1 1 = Returned (lit 0)
  ∧ nlt (nabs (lit 0 : Qc)) lit_1e12 = true
  ∧ elimStep 3 rankOne 1 = Returned rankOne
  ∧ backStep 3 rankOne [lit 0; lit 0; lit 0] 1
    = Returned [lit 0; lit 0; lit 0]
  ∧ fractions (x ← backSubstitute 3 rankOne; Returned [x])
    = Returned [[3; 0; 0]]%Q.
Proof.
  pose proof (@singular_entries_skipped Qc exact) as (Hskip & Hstep & _).
  split; [done |]. split; [done |]. split; [| split].
  - exact (Hskip 3 rankOne 1 1 rankOne (lit 0) eq_refl eq_refl eq_refl eq_refl).
  - exact (Hstep 3 rankOne [lit 0; lit 0; lit 0] 1 (lit 0) eq_refl eq_refl).
  - by vm_compute.
Defined.

Lemma no_complete_pair_is_rejected_witness :
  filter complete (colorPairs (addColorPair initialStore)) = []
  ∧ calculateClick (addColorPair initialStore) true
    = ShowResult "Please add at least one complete color pair (source + target)."
  ∧ calculateClick oneComplete true
    = CallSolver [rgb 255 0 0] [rgb 0 255 0] true
  ∧ [rgb 255 0 0] ≠ [].
Proof.
  split; [done |]. split; [| split].
  - exact (proj1 (no_complete_pair_is_rejected (addColorPair initialStore) true)
             eq_refl).
  - done.
  - exact (proj1 (proj2 (no_complete_pair_is_rejected oneComplete true)
                    [rgb 255 0 0] [rgb 0 255 0] true eq_refl)).
Defined.

Lemma setSourceForPair_frame_witness :
  ids (setSourceForPair 2 (rgb 1 2 3) oneComplete) = [1; 2]%Z
  ∧ colorPairs (setSourceForPair 2 (rgb 1 2 3) oneComplete)
    = [{| id := 1; source := Some (rgb 255 0 0); target := Some (rgb 0 255 0) |};
       {| id := 2; source := Some (rgb 1 2 3); target := None |}]
  ∧ ids (setSourceForPair 2 (rgb 1 2 3) oneComplete) = ids oneComplete
  ∧ setSourceForPair 7 (rgb 1 2 3) oneComplete = oneComplete.
Proof.
  split; [done |]. split; [done |]. split.
  - exact (proj1 (proj2 (proj2 (setSourceForPair_frame 2 (rgb 1 2 3) oneComplete)))).
  - apply (proj2 (proj2 (proj2 (proj2 (proj2
             (setSourceForPair_frame 7 (rgb 1 2 3) oneComplete)))))).
    intros Hin. do 2 (apply elem_of_cons in Hin as [? | Hin]; [done |]).
    by apply elem_of_nil in Hin.
Defined.

(** ** Gaussian elimination solves the system *)

Lemma foldM_seq_inv {B : Type} (Q : nat → B → Prop) (f : B → nat → outcome B)
    (a k : nat) (b : B) :
  Q a b →
  (∀ i b, a ≤ i < a + k → Q i b → ∃ b', f b i = Returned b' ∧ Q (S i) b') →
  ∃ b', foldM f (seq a k) b = Returned b' ∧ Q (a + k) b'.
Proof.
  revert a b. induction k as [|k IH]; intros a b Hb Hstep; simpl.
  - rewrite Nat.add_0_r. eauto.
  - destruct (Hstep a b) as (b1 & -> & Hb1); [lia | done |]. simpl.
    replace (a + S k) with (S a + k) by lia. apply IH; [done |].
    intros i b2 Hi. apply Hstep. lia.
Qed.

Lemma sumRange_S (a k : nat) (f : nat → Qc) :
  sumRange a (S k) f = (sumRange a k f + f (a + k)%nat)%Qc.
Proof.
  unfold sumRange. revert a. induction k as [|k IH]; intros a.
  - simpl. rewrite Nat.add_0_r. ring.
  - change (seq a (S (S k))) with (a :: seq (S a) (S k)).
    cbn [map]. rewrite !qsum_cons, IH.
    change (seq a (S k)) with (a :: seq (S a) k). cbn [map].
    rewrite qsum_cons. replace (S a + k) with (a + S k) by lia. ring.
Qed.

Lemma sumRange_cons (a k : nat) (f : nat → Qc) :
  sumRange a (S k) f = (f a + sumRange (S a) k f)%Qc.
Proof. reflexivity. Qed.

Lemma sumRange_ext (a k : nat) (f h : nat → Qc) :
  (∀ j, a ≤ j < a + k → f j = h j) → sumRange a k f = sumRange a k h.
Proof.
  revert a. induction k as [|k IH]; intros a Hfh; [done |].
  rewrite !sumRange_cons, Hfh by lia. f_equal. apply IH. intros j Hj.
  apply Hfh. lia.
Qed.

Lemma sumRange_zero (a k : nat) (f : nat → Qc) :
  (∀ j, a ≤ j < a + k → f j = 0%Qc) → sumRange a k f = 0%Qc.
Proof.
  revert a. induction k as [|k IH]; intros a Hf; [done |].
  rewrite sumRange_cons, Hf, IH by (try intros j Hj; try apply Hf; lia). ring.
Qed.

Lemma sumRange_app (a k1 k2 : nat) (f : nat → Qc) :
  sumRange a (k1 + k2) f = (sumRange a k1 f + sumRange (a + k1)%nat k2 f)%Qc.
Proof.
  induction k2 as [|k2 IH].
  - rewrite Nat.add_0_r. unfold sumRange at 3. simpl. ring.
  - replace (k1 + S k2) with (S (k1 + k2)) by lia.
    rewrite !sumRange_S, IH. replace (a + (k1 + k2)) with (a + k1 + k2) by lia.
    ring.
Qed.

Lemma sumRange_combine (a k : nat) (f h : nat → Qc) (c : Qc) :
  sumRange a k (λ j, f j + c * h j)%Qc
  = (sumRange a k f + c * sumRange a k h)%Qc.
Proof.
  revert a. induction k as [|k IH]; intros a.
  - unfold sumRange. simpl. ring.
  - rewrite !sumRange_cons, IH. ring.
Qed.

Lemma entry_lookup (row : list Qc) (j : nat) (v : Qc) :
  row !! j = Some v → entry row j = v.
Proof. intros H. unfold entry. by rewrite nth_lookup, H. Qed.

Lemma entry_ge (row : list Qc) (j : nat) : length row ≤ j → entry row j = 0%Qc.
Proof. intros H. unfold entry. by rewrite nth_overflow. Qed.

Lemma entry_insert (row : list Qc) (j k : nat) (v : Qc) :
  k < length row →
  entry (<[k := v]> row) j = if decide (j = k) then v else entry row j.
Proof.
  intros Hk. unfold entry. rewrite !nth_lookup. destruct (decide (j = k)) as [-> |].
  - by rewrite list_lookup_insert_eq.
  - by rewrite list_lookup_insert_ne.
Qed.

Lemma getNum_entry (row : list Qc) (j : nat) :
  j < length row → getNum row j = Returned (entry row j).
Proof.
  intros Hj. destruct (lookup_lt_is_Some_2 row j Hj) as [v Hv].
  unfold getNum. rewrite Hv. by rewrite (entry_lookup row j v).
Qed.

Lemma at2_entry (M : list (list Qc)) (i j : nat) (row : list Qc) :
  M !! i = Some row → j < length row → at2 M i j = Returned (entry row j).
Proof.
  intros HM Hj. unfold at2, getRow. rewrite HM. simpl. by apply getNum_entry.
Qed.

Lemma exact_big_nonzero (p : Qc) : nlt (nabs p) lit_1e12 = false → p ≠ 0%Qc.
Proof. intros Hbig ->. vm_compute in Hbig. discriminate. Qed.

Lemma shaped_row_length {num : Type} (n k : nat) (M : list (list num)) i row :
  shaped n k M → M !! i = Some row → length row = k.
Proof. intros [_ Hk] Hi. by eapply Forall_lookup_1 in Hk. Qed.

Lemma shaped_lt {num : Type} (n k : nat) (M : list (list num)) i row :
  shaped n k M → M !! i = Some row → i < n.
Proof. intros [<- _] Hi. by eapply lookup_lt_Some. Qed.

(** The row loop body replaces row [r] by [row - factor * pivotRow] from
    column [col] on, and leaves the columns before [col] as they are. *)
Lemma eliminateRow_effect n col (aug : list (list Qc)) r prow row :
  shaped n (S n) aug → col < n → r ≠ col →
  aug !! col = Some prow → aug !! r = Some row →
  nlt (nabs (entry prow col)) lit_1e12 = false →
  ∃ newrow,
    eliminateRow n col aug r = Returned (<[r := newrow]> aug)
    ∧ length newrow = S n
    ∧ ∀ j, entry newrow j
           = if decide (col ≤ j)
             then (entry row j - entry row col / entry prow col * entry prow j)%Qc
             else entry row j.
Proof.
  intros Hsh Hcol Hr Hprow Hrow Hbig.
  pose proof (shaped_row_length _ _ _ _ _ Hsh Hprow) as Hlp.
  pose proof (shaped_row_length _ _ _ _ _ Hsh Hrow) as Hlr.
  pose proof (shaped_lt _ _ _ _ _ Hsh Hrow) as Hrn.
  pose proof (exact_big_nonzero _ Hbig) as Hnz.
  unfold eliminateRow.
  rewrite (at2_entry aug r col row), (at2_entry aug col col prow) by (done || lia).
  cbn [mbind outcome_bind]. change (@ndiv Qc exact) with Qc_div.
  rewrite Qc_div_nonzero by done. cbn [mbind outcome_bind].
  set (factor := (entry row col / entry prow col)%Qc).
  set (Q := λ (k : nat) (aug' : list (list Qc)),
         ∃ cur, aug' = <[r := cur]> aug ∧ length cur = S n
                ∧ ∀ j, entry cur j
                       = if decide (col ≤ j < k)
                         then (entry row j - factor * entry prow j)%Qc
                         else entry row j).
  match goal with |- context [foldM ?f (seq ?a ?k) ?b] =>
    destruct (foldM_seq_inv Q f a k b) as (aug1 & -> & cur & -> & Hlen & Hcur)
  end.
  - exists row. split; [by rewrite list_insert_id |]. split; [done |].
    intros j. destruct (decide (col ≤ j < col)); [lia | done].
  - intros k aug' Hk (cur & -> & Hlen & Hcur).
    assert (r < length aug) as Hrl by (by eapply lookup_lt_Some).
    rewrite (at2_entry _ r k cur), (at2_entry _ col k prow);
      [| by rewrite list_lookup_insert_ne | lia
       | by rewrite list_lookup_insert_eq | lia].
    cbn [mbind outcome_bind]. unfold setAt, getRow.
    rewrite list_lookup_insert_eq by done. cbn [mbind outcome_bind].
    rewrite list_insert_insert_eq. eexists. split; [done |].
    eexists. split; [done |]. split; [by rewrite length_insert |].
    intros j. rewrite entry_insert by lia.
    destruct (decide (j = k)) as [-> |].
    + rewrite Hcur. destruct (decide (col ≤ k < k)); [lia |].
      by destruct (decide (col ≤ k < S k)); [| lia].
    + rewrite Hcur.
      destruct (decide (col ≤ j < k)), (decide (col ≤ j < S k)); done || lia.
  - exists cur. split; [done |]. split; [done |].
    intros j. rewrite Hcur.
    destruct (decide (col ≤ j < col + (S n - col))), (decide (col ≤ j));
      try done; try lia.
    rewrite !entry_ge by lia. ring.
Qed.

Lemma swapped_lookup (aug : list (list Qc)) col m rc rm r :
  aug !! col = Some rc → aug !! m = Some rm →
  <[m := rc]> (<[col := rm]> aug) !! r
  = if decide (r = m) then Some rc
    else if decide (r = col) then Some rm else aug !! r.
Proof.
  intros Hc Hm. apply lookup_lt_Some in Hc as Hcl. apply lookup_lt_Some in Hm as Hml.
  destruct (decide (r = m)) as [-> |].
  - by rewrite list_lookup_insert_eq by (by rewrite length_insert).
  - rewrite list_lookup_insert_ne by done. destruct (decide (r = col)) as [-> |].
    + by rewrite list_lookup_insert_eq.
    + by rewrite list_lookup_insert_ne.
Qed.

Lemma swapRows_swapped (aug : list (list Qc)) col m rc rm :
  aug !! col = Some rc → aug !! m = Some rm →
  swapRows aug col m = Returned (<[m := rc]> (<[col := rm]> aug)).
Proof. intros Hc Hm. unfold swapRows, getRow. by rewrite Hm, Hc. Qed.

Lemma solves_swapped n x (aug : list (list Qc)) col m rc rm :
  aug !! col = Some rc → aug !! m = Some rm →
  solves n x (<[m := rc]> (<[col := rm]> aug)) → solves n x aug.
Proof.
  intros Hc Hm Hs r row Hrow.
  destruct (decide (r = col)) as [-> |]; [| destruct (decide (r = m)) as [-> |]].
  - apply (Hs m). rewrite (swapped_lookup _ _ _ rc rm) by done.
    rewrite decide_True by done. congruence.
  - apply (Hs col). rewrite (swapped_lookup _ _ _ rc rm) by done.
    destruct (decide (col = m)); [congruence |].
    rewrite decide_True by done. congruence.
  - apply (Hs r). rewrite (swapped_lookup _ _ _ rc rm) by done.
    by rewrite !decide_False by done.
Qed.

Lemma lowerZero_swapped k (aug : list (list Qc)) col m rc rm :
  k ≤ col → col ≤ m → aug !! col = Some rc → aug !! m = Some rm →
  lowerZero k aug → lowerZero k (<[m := rc]> (<[col := rm]> aug)).
Proof.
  intros Hk Hcm Hc Hm Hz r c row Hck Hcr.
  rewrite (swapped_lookup _ _ _ rc rm) by done.
  destruct (decide (r = m)) as [-> |]; [| destruct (decide (r = col)) as [-> |]].
  - intros [= <-]. apply (Hz col); [done | lia | done].
  - intros [= <-]. apply (Hz m); [done | lia | done].
  - by apply Hz.
Qed.

Lemma rowHolds_combine n x (row newrow prow : list Qc) (factor : Qc) :
  (∀ j, entry row j = entry newrow j + factor * entry prow j)%Qc →
  rowHolds n x newrow → rowHolds n x prow → rowHolds n x row.
Proof.
  unfold rowHolds, lhs. intros Hj Hnew Hp.
  rewrite (sumRange_ext 0 n _
             (λ j, entry newrow j * entry x j
                   + factor * (entry prow j * entry x j))%Qc).
  - rewrite sumRange_combine, Hnew, Hp, Hj. done.
  - intros j _. rewrite Hj. ring.
Qed.

(** The row loop of a column whose pivot is regular: the rows below the
    pivot get a zero in the pivot column, the rows up to the pivot are as
    they were, and a solution of the new rows solves the old ones. *)
Lemma eliminateRows_effect n col (augS : list (list Qc)) prow :
  shaped n (S n) augS → col < n → augS !! col = Some prow →
  nlt (nabs (entry prow col)) lit_1e12 = false →
  ∃ aug1,
    foldM (eliminateRow n col) (seq (S col) (n - S col)) augS = Returned aug1
    ∧ shaped n (S n) aug1
    ∧ (∀ r, r ≤ col → aug1 !! r = augS !! r)
    ∧ (lowerZero col augS →
       lowerZero (S col) aug1 ∧ ∀ x, solves n x aug1 → solves n x augS).
Proof.
  intros Hsh Hcol Hprow Hbig.
  pose proof (exact_big_nonzero _ Hbig) as Hnz.
  set (Q := λ (k : nat) (aug' : list (list Qc)),
         shaped n (S n) aug'
         ∧ (∀ r, r ≤ col → aug' !! r = augS !! r)
         ∧ (lowerZero col augS →
            lowerZero col aug'
            ∧ (∀ r row, col < r < k → aug' !! r = Some row →
                        entry row col = 0%Qc)
            ∧ ∀ x, solves n x aug' → solves n x augS)).
  destruct (foldM_seq_inv Q (eliminateRow n col) (S col) (n - S col) augS)
    as (aug1 & Hfold & Hsh1 & Hframe & Hrest).
  - split; [done |]. split; [done |]. intros Hz. split; [done |].
    split; [intros; lia | done].
  - intros r aug' Hr (Hsh' & Hframe & Hrest).
    destruct (shaped_lookup n (S n) aug' r) as (row & Hrow & Hlrow); [done | lia |].
    assert (aug' !! col = Some prow) as Hprow' by (by rewrite Hframe).
    destruct (eliminateRow_effect n col aug' r prow row)
      as (newrow & -> & Hlen & Hnew); [done | done | lia | done | done | done |].
    eexists. split; [done |]. split; [by apply shaped_insert |]. split.
    { intros r' Hr'. rewrite list_lookup_insert_ne by lia. by apply Hframe. }
    intros Hz. destruct (Hrest Hz) as (Hz' & Hdone & Hsol).
    assert (r < length aug') as Hrl by (by eapply lookup_lt_Some).
    split; [| split].
    + intros r' c row' Hc Hcr. destruct (decide (r' = r)) as [-> |].
      * rewrite list_lookup_insert_eq by done. intros [= <-].
        rewrite Hnew. destruct (decide (col ≤ c)); [lia |].
        by apply (Hz' r).
      * rewrite list_lookup_insert_ne by done. by apply Hz'.
    + intros r' row' Hr'. destruct (decide (r' = r)) as [-> |].
      * rewrite list_lookup_insert_eq by done. intros [= <-].
        rewrite Hnew. destruct (decide (col ≤ col)); [| lia]. by field.
      * rewrite list_lookup_insert_ne by done. apply Hdone. lia.
    + intros x Hx. apply Hsol. intros r' row' Hrow'.
      destruct (decide (r' = r)) as [-> |].
      * assert (row' = row) as -> by congruence.
        apply (rowHolds_combine n x row newrow prow
                 (entry row col / entry prow col)).
        -- intros j. rewrite Hnew. destruct (decide (col ≤ j)); [ring |].
           rewrite (Hz' col j prow) by (done || lia). ring.
        -- apply (Hx r). by rewrite list_lookup_insert_eq.
        -- apply (Hx col). by rewrite list_lookup_insert_ne by lia.
      * apply (Hx r'). by rewrite list_lookup_insert_ne.
  - exists aug1. split; [done |]. split; [done |]. split; [done |].
    intros Hz. destruct (Hrest Hz) as (Hz' & Hdone & Hsol). split; [| done].
    intros r c row Hc Hcr Hrow. destruct (decide (c = col)) as [-> |].
    + apply (Hdone r); [| done].
      pose proof (shaped_lt _ _ _ _ _ Hsh1 Hrow). lia.
    + apply (Hz' r); [lia | done | done].
Qed.

(** One column step: the rows above the column are untouched; when the
    pivot it leaves on the diagonal is regular, the column is cleared below
    the diagonal and a solution of the new matrix solves the old one. *)
Lemma elimStep_effect n (aug aug1 : list (list Qc)) col :
  shaped n (S n) aug → col < n → elimStep n aug col = Returned aug1 →
  shaped n (S n) aug1
  ∧ (∀ r, r < col → aug1 !! r = aug !! r)
  ∧ (∀ row, aug1 !! col = Some row →
            nlt (nabs (entry row col)) lit_1e12 = false →
            lowerZero col aug →
            lowerZero (S col) aug1 ∧ ∀ x, solves n x aug1 → solves n x aug).
Proof.
  intros Hsh Hcol. unfold elimStep.
  destruct (findPivot_returns n col aug) as (m & -> & Hm); [done.. |].
  cbn [mbind outcome_bind].
  destruct (shaped_lookup n (S n) aug col) as (rc & Hrc & Hlc); [done.. |].
  destruct (shaped_lookup n (S n) aug m) as (rm & Hrm & Hlm); [done | lia |].
  rewrite (swapRows_swapped aug col m rc rm) by done.
  cbn [mbind outcome_bind].
  set (augS := <[m := rc]> (<[col := rm]> aug)).
  assert (shaped n (S n) augS) as HshS
    by (by do 2 (apply shaped_insert; [| done])).
  assert (augS !! col = Some rm) as HcolS.
  { unfold augS. rewrite (swapped_lookup _ _ _ rc rm) by done.
    destruct (decide (col = m)); [congruence |]. by rewrite decide_True. }
  assert (∀ r, r < col → augS !! r = aug !! r) as HframeS.
  { intros r Hr. unfold augS. rewrite (swapped_lookup _ _ _ rc rm) by done.
    by rewrite !decide_False by lia. }
  rewrite (at2_entry augS col col rm) by (done || lia).
  cbn [mbind outcome_bind].
  destruct (nlt (nabs (entry rm col)) lit_1e12) eqn:Hsmall.
  - intros [= <-]. split; [done |]. split; [done |].
    intros row Hrow Hbig. congruence.
  - destruct (eliminateRows_effect n col augS rm)
      as (aug' & -> & Hsh' & Hframe' & Hrest); [done.. |].
    intros [= <-]. split; [done |]. split.
    { intros r Hr. rewrite Hframe' by lia. by apply HframeS. }
    intros row _ _ Hz. destruct Hrest as [Hz' Hsol].
    { unfold augS. apply lowerZero_swapped; done || lia. }
    split; [done |]. intros x Hx.
    apply (solves_swapped n x aug col m rc rm); [done.. |]. by apply Hsol.
Qed.

Lemma elimSteps_frame n (aug aug1 : list (list Qc)) c0 k :
  shaped n (S n) aug → c0 + k ≤ n →
  foldM (elimStep n) (seq c0 k) aug = Returned aug1 →
  shaped n (S n) aug1 ∧ ∀ r, r < c0 → aug1 !! r = aug !! r.
Proof.
  revert c0 aug. induction k as [|k IH]; intros c0 aug Hsh Hk; simpl.
  - by intros [= <-].
  - destruct (elimStep n aug c0) as [aug'| |] eqn:Hstep; simpl; try done.
    destruct (elimStep_effect n aug aug' c0) as (Hsh' & Hframe & _);
      [done | lia | done |].
    intros Hfold. destruct (IH (S c0) aug') as [Hsh1 Hframe1];
      [done | lia | done |].
    split; [done |]. intros r Hr. rewrite Hframe1 by lia. by apply Hframe.
Qed.

(** Forward elimination that leaves a regular diagonal leaves an upper
    triangular matrix whose solutions solve the matrix it started from. *)
Lemma elimSteps_effect n (aug aug1 : list (list Qc)) c0 k :
  shaped n (S n) aug → c0 + k ≤ n →
  foldM (elimStep n) (seq c0 k) aug = Returned aug1 →
  (∀ i row, c0 ≤ i < c0 + k → aug1 !! i = Some row →
            nlt (nabs (entry row i)) lit_1e12 = false) →
  lowerZero c0 aug →
  lowerZero (c0 + k) aug1 ∧ ∀ x, solves n x aug1 → solves n x aug.
Proof.
  revert c0 aug. induction k as [|k IH]; intros c0 aug Hsh Hk; simpl.
  - intros [= <-] _ Hz. by rewrite Nat.add_0_r.
  - destruct (elimStep n aug c0) as [aug'| |] eqn:Hstep; simpl; try done.
    intros Hfold Hreg Hz.
    destruct (elimStep_effect n aug aug' c0) as (Hsh' & _ & Heff);
      [done | lia | done |].
    destruct (elimSteps_frame n aug' aug1 (S c0) k) as [Hsh1 Hframe1];
      [done | lia | done |].
    destruct (shaped_lookup n (S n) aug' c0) as (row & Hrow & _); [done | lia |].
    destruct (Heff row Hrow) as [Hz' Hsol]; [| done |].
    { apply (Hreg c0); [lia |]. by rewrite Hframe1 by lia. }
    destruct (IH (S c0) aug') as [Hz1 Hsol1]; [done | lia | done | | done |].
    { intros i row' Hi. apply Hreg. lia. }
    replace (c0 + S k) with (S c0 + k) by lia. split; [done |].
    intros x Hx. by apply Hsol, Hsol1.
Qed.

(** An iteration of back substitution on a regular diagonal entry. *)
Lemma backStep_effect n (aug : list (list Qc)) x i row :
  shaped n (S n) aug → i < n → length x = n → aug !! i = Some row →
  nlt (nabs (entry row i)) lit_1e12 = false →
  backStep n aug x i
  = Returned (<[i := ((entry row n
                       - sumRange (S i) (n - S i) (λ j, entry row j * entry x j))
                      / entry row i)%Qc]> x).
Proof.
  intros Hsh Hi Hx Hrow Hbig.
  pose proof (shaped_row_length _ _ _ _ _ Hsh Hrow) as Hlr.
  pose proof (exact_big_nonzero _ Hbig) as Hnz.
  unfold backStep. rewrite (at2_entry aug i i row) by (done || lia).
  cbn [mbind outcome_bind]. rewrite Hbig.
  rewrite (at2_entry aug i n row) by (done || lia). cbn [mbind outcome_bind].
  set (f := (λ j, entry row j * entry x j)%Qc).
  set (Q := λ (k : nat) (x' : list Qc),
         x' = <[i := (entry row n - sumRange (S i) (k - S i) f)%Qc]> x).
  match goal with |- context [foldM ?g (seq ?a ?k) ?b0] =>
    destruct (foldM_seq_inv Q g a k b0) as (x1 & -> & ->)
  end.
  - unfold Q. rewrite Nat.sub_diag. f_equal. unfold sumRange. simpl. ring.
  - intros k x' Hk ->.
    rewrite getNum_entry by (rewrite length_insert; lia).
    rewrite (at2_entry aug i k row) by (done || lia).
    rewrite getNum_entry by (rewrite length_insert; lia).
    cbn [mbind outcome_bind]. rewrite list_insert_insert_eq.
    eexists. split; [done |]. unfold Q. f_equal.
    rewrite !entry_insert by lia.
    rewrite decide_True by done. rewrite decide_False by lia.
    replace (S k - S i) with (S (k - S i)) by lia.
    rewrite sumRange_S. replace (S i + (k - S i)) with k by lia.
    unfold f. cbn [nsub nmul exact]. ring.
  - cbn [mbind outcome_bind].
    rewrite getNum_entry by (rewrite length_insert; lia).
    cbn [mbind outcome_bind]. change (@ndiv Qc exact) with Qc_div.
    rewrite Qc_div_nonzero by done. cbn [mbind outcome_bind].
    rewrite list_insert_insert_eq. do 2 f_equal.
    rewrite entry_insert by lia. rewrite decide_True by done.
    by replace (S i + (n - S i) - S i) with (n - S i) by lia.
Qed.

Lemma backSteps_effect n (aug : list (list Qc)) k x0 x :
  shaped n (S n) aug → k ≤ n → length x0 = n →
  (∀ i row, i < k → aug !! i = Some row →
            nlt (nabs (entry row i)) lit_1e12 = false) →
  foldM (backStep n aug) (rev (seq 0 k)) x0 = Returned x →
  (∀ i row, k ≤ i → aug !! i = Some row → upperHolds n i x0 row) →
  length x = n ∧ ∀ i row, aug !! i = Some row → upperHolds n i x row.
Proof.
  intros Hsh. revert x0. induction k as [|k IH]; intros x0 Hk Hx0 Hreg.
  - simpl. intros [= <-] Hup. split; [done |]. intros i row. apply Hup. lia.
  - rewrite seq_S, rev_app_distr. simpl.
    destruct (shaped_lookup n (S n) aug k) as (rowk & Hrowk & Hlk); [done | lia |].
    assert (nlt (nabs (entry rowk k)) lit_1e12 = false) as Hbig
      by (apply (Hreg k); [lia | done]).
    rewrite (backStep_effect n aug x0 k rowk) by (done || lia).
    cbn [mbind outcome_bind].
    set (q := ((entry rowk n - sumRange (S k) (n - S k)
                                 (λ j, entry rowk j * entry x0 j)) / entry rowk k)%Qc).
    intros Hfold Hup. apply (IH (<[k := q]> x0)); [lia | | | done |].
    { by rewrite length_insert. }
    { intros i row Hi. apply Hreg. lia. }
    intros i row Hi Hrow. unfold upperHolds.
    pose proof (exact_big_nonzero _ Hbig) as Hnz.
    destruct (decide (i = k)) as [-> |].
    + assert (row = rowk) as -> by congruence.
      replace (n - k) with (S (n - S k)) by lia. rewrite sumRange_cons.
      rewrite (sumRange_ext (S k) _ _ (λ j, entry rowk j * entry x0 j)%Qc).
      * rewrite entry_insert by lia. rewrite decide_True by done.
        unfold q. by field.
      * intros j Hj. rewrite entry_insert by lia. by rewrite decide_False by lia.
    + rewrite (sumRange_ext i _ _ (λ j, entry row j * entry x0 j)%Qc).
      * apply Hup; [lia | done].
      * intros j Hj. rewrite entry_insert by lia. by rewrite decide_False by lia.
Qed.

(** Back substitution on an upper triangular matrix with a regular
    diagonal returns a solution of every row. *)
Lemma backSubstitute_solves n (aug : list (list Qc)) x :
  shaped n (S n) aug → lowerZero n aug → diagonalRegular n aug →
  backSubstitute n aug = Returned x →
  length x = n ∧ solves n x aug.
Proof.
  intros Hsh Hz Hreg Hx. unfold backSubstitute in Hx.
  assert (length (replicate n (lit 0 : Qc)) = n) as H0 by apply length_replicate.
  assert (∀ i row, n ≤ i → aug !! i = Some row →
                   upperHolds n i (replicate n (lit 0)) row) as Hvac.
  { intros i row Hi Hrow. pose proof (shaped_lt _ _ _ _ _ Hsh Hrow). lia. }
  destruct (backSteps_effect n aug n _ x Hsh (Nat.le_refl n) H0 Hreg Hx Hvac)
    as [Hlen Hup].
  split; [done |]. intros r row Hrow.
  pose proof (shaped_lt _ _ _ _ _ Hsh Hrow) as Hr.
  unfold rowHolds, lhs. replace n with (r + (n - r)) at 1 by lia.
  rewrite sumRange_app, sumRange_zero.
  - rewrite Qcplus_0_l. by apply Hup.
  - intros j Hj. rewrite (Hz r j row) by (done || lia). ring.
Qed.

Lemma mapMi_lookup {A B : Type} (f : nat → A → outcome B) (k : nat)
    (l : list A) (bs : list B) :
  mapMi f k l = Returned bs →
  length bs = length l
  ∧ ∀ i a, l !! i = Some a → ∃ b, f (k + i) a = Returned b ∧ bs !! i = Some b.
Proof.
  revert k bs. induction l as [|a l IH]; intros k bs; simpl.
  - intros [= <-]. split; [done |]. intros i a0 Hi. done.
  - destruct (f k a) as [b0| |] eqn:Hb; simpl; try done.
    destruct (mapMi f (S k) l) as [bs0| |] eqn:Hbs; simpl; try done.
    intros [= <-]. destruct (IH (S k) bs0 Hbs) as [Hlen Hlook].
    split; [simpl; lia |]. intros [|i] a0 Hi; simpl in *.
    + injection Hi as <-. rewrite Nat.add_0_r. eauto.
    + replace (k + S i) with (S k + i) by lia. by apply Hlook.
Qed.

Lemma lhs_app_last n (row x : list Qc) (bi : Qc) :
  length row = n →
  lhs n (row ++ [bi]) x = lhs n row x ∧ entry (row ++ [bi]) n = bi.
Proof.
  intros Hn. split.
  - unfold lhs. apply sumRange_ext. intros j Hj. unfold entry.
    by rewrite app_nth1 by lia.
  - unfold entry. rewrite app_nth2 by lia. by rewrite Hn, Nat.sub_diag.
Qed.

Lemma regular_system_solved (A : list (list Qc)) (b x : list Qc)
    (aug : list (list Qc)) :
  shaped (length A) (length A) A → length b = length A →
  eliminated A b = Returned aug → diagonalRegular (length A) aug →
  solveLinearSystem A b = Returned x →
  length x = length A ∧ Forall2 (λ row bi, lhs (length A) row x = bi) A b.
Proof.
  intros HA Hb. unfold eliminated, solveLinearSystem.
  set (n := length A) in *.
  destruct (augment A b) as [aug0| |] eqn:Haug; cbn [mbind outcome_bind];
    try done.
  intros Helim Hreg. rewrite Helim. cbn [mbind outcome_bind]. intros Hx.
  destruct (augment_returns n A b) as (aug0' & Haug' & Hsh0); [done | lia |].
  assert (aug0' = aug0) as -> by congruence.
  destruct (elimSteps_frame n aug0 aug 0 n) as [Hsh _]; [done | lia | done |].
  destruct (elimSteps_effect n aug0 aug 0 n) as [Hz Hsol];
    [done | lia | done | | |].
  { intros i row Hi. apply Hreg. lia. }
  { intros r c row Hc. lia. }
  destruct (backSubstitute_solves n aug x) as [Hlen Hsolves]; [done.. |].
  split; [done |].
  apply Forall2_same_length_lookup. split; [lia |].
  intros i row bi Hrow Hbi.
  destruct (mapMi_lookup _ _ _ _ Haug) as [_ Hlook].
  destruct (Hlook i row Hrow) as (row' & Hrow' & Haugi).
  simpl in Hrow'. unfold getNum in Hrow'. rewrite Hbi in Hrow'.
  simpl in Hrow'. injection Hrow' as <-.
  pose proof (Hsol x Hsolves i _ Haugi) as Hhold.
  unfold rowHolds in Hhold.
  destruct (lhs_app_last n row x bi) as [Hl He].
  { destruct HA as [_ HA]. by eapply Forall_lookup_1 in HA. }
  by rewrite Hl, He in Hhold.
Qed.

(** X1. In exact arithmetic, when forward elimination leaves no diagonal
    entry below 1e-12, the vector [solveLinearSystem] returns satisfies
    every equation of the system it was given: the sum of A[i][j] * x[j]
    over j is b[i]. *)
Theorem solveLinearSystem_solves (A : list (list Qc)) (b x : list Qc)
    (aug : list (list Qc)) :
  shaped (length A) (length A) A → length b = length A →
  eliminated A b = Returned aug → diagonalRegular (length A) aug →
  solveLinearSystem A b = Returned x →
  length x = length A ∧ Forall2 (λ row bi, lhs (length A) row x = bi) A b.
Proof.
  intros HA Hb Helim Hreg Hx.
  exact (regular_system_solved A b x aug HA Hb Helim Hreg Hx).
Qed.

(** ** Least squares builds and solves the regularised normal equations *)

Lemma ATA_entry_exact m (A : list (list Qc)) i j :
  Forall (λ row, length row = m) A → i < m → j < m →
  ATA_entry A i j
  = Returned (qsum (map (λ row, entry row i * entry row j)%Qc A)).
Proof.
  intros HA Hi Hj. unfold ATA_entry. change (lit 0) with 0%Qc.
  assert (∀ a : Qc,
    foldM (λ (sum : Qc) row, ri ← getNum row i; rj ← getNum row j;
                             Returned (nadd sum (nmul ri rj))) A a
    = Returned (a + qsum (map (λ row, entry row i * entry row j) A))%Qc) as Hgen.
  { induction A as [|row A IH]; intros a.
    - simpl. f_equal. ring.
    - apply Forall_cons in HA as [Hrow HA]. simpl in Hrow. cbn [foldM map].
      rewrite (getNum_entry row i), (getNum_entry row j) by lia.
      cbn [mbind outcome_bind].
      rewrite IH by done. f_equal. rewrite qsum_cons.
      cbn [nadd nmul exact]. ring. }
  rewrite Hgen. f_equal. ring.
Qed.

Lemma ATb_entry_exact m (A : list (list Qc)) (b : list Qc) i :
  Forall (λ row, length row = m) A → length A ≤ length b → i < m →
  ATb_entry A b i
  = Returned (qsum (zip_with (λ row bk, entry row i * bk)%Qc A b)).
Proof.
  intros HA Hb Hi. unfold ATb_entry. change (lit 0) with 0%Qc.
  assert (∀ (pre rest : list Qc) (a : Qc),
    b = pre ++ rest → length A ≤ length rest →
    foldMi (λ (sum : Qc) k row, ri ← getNum row i; bk ← getNum b k;
                                Returned (nadd sum (nmul ri bk)))
           (length pre) A a
    = Returned (a + qsum (zip_with (λ row bk, entry row i * bk) A rest))%Qc)
    as Hgen.
  { clear Hb. induction A as [|row A IH]; intros pre rest a Hpre Hlen.
    - simpl. f_equal. ring.
    - apply Forall_cons in HA as [Hrow HA]. simpl in Hrow.
      destruct rest as [|bk rest]; [simpl in Hlen; lia |].
      cbn [foldMi zip_with]. rewrite (getNum_entry row i) by lia.
      assert (getNum b (length pre) = Returned bk) as ->.
      { rewrite Hpre. unfold getNum. by rewrite list_lookup_middle. }
      cbn [mbind outcome_bind].
      replace (S (length pre)) with (length (pre ++ [bk]))
        by (rewrite length_app; simpl; lia).
      rewrite (IH HA (pre ++ [bk]) rest).
      + f_equal. rewrite qsum_cons. cbn [nadd nmul exact]. ring.
      + by rewrite <- app_assoc.
      + simpl in Hlen. lia. }
  pose proof (Hgen [] b 0%Qc eq_refl Hb) as H0. cbn [length] in H0.
  rewrite H0. f_equal. ring.
Qed.

Lemma buildATA_exact m (A : list (list Qc)) :
  Forall (λ row, length row = m) A →
  buildATA m A
  = Returned (map (λ i, map (λ j, qsum (map (λ row, entry row i * entry row j)%Qc A))
                            (seq 0 m)) (seq 0 m)).
Proof.
  intros HA. unfold buildATA. apply mapMo_pure. intros i Hi%elem_of_seq.
  apply mapMo_pure. intros j Hj%elem_of_seq. apply (ATA_entry_exact m); done || lia.
Qed.

Lemma buildATb_exact m (A : list (list Qc)) (b : list Qc) :
  Forall (λ row, length row = m) A → length A ≤ length b →
  buildATb m A b = Returned (normalVector m A b).
Proof.
  intros HA Hb. unfold buildATb, normalVector. apply mapMo_pure.
  intros i Hi%elem_of_seq. apply (ATb_entry_exact m); done || lia.
Qed.

Lemma insert_map_seq {B : Type} (h : nat → B) (m k : nat) (v : B) :
  k < m →
  <[k := v]> (map h (seq 0 m))
  = map (λ j, if decide (j = k) then v else h j) (seq 0 m).
Proof.
  intros Hk. apply list_eq. intros j.
  change (<[k := v]> (h <$> seq 0 m) !! j
          = ((λ j, if decide (j = k) then v else h j) <$> seq 0 m) !! j).
  rewrite list_lookup_insert, !list_lookup_fmap, length_fmap, length_seq.
  destruct (decide (j < m)) as [Hj | Hj].
  - rewrite lookup_seq_lt by done. simpl.
    destruct (decide (k = j ∧ k < m)) as [[-> _] |].
    + by rewrite decide_True.
    + rewrite decide_False by (intros ->; tauto). done.
  - rewrite lookup_seq_ge by lia. simpl.
    rewrite decide_False by lia. done.
Qed.

Lemma map_seq_lookup {B : Type} (h : nat → B) (m j : nat) :
  j < m → map h (seq 0 m) !! j = Some (h j).
Proof.
  intros Hj. change ((h <$> seq 0 m) !! j = Some (h j)).
  by rewrite list_lookup_fmap, lookup_seq_lt.
Qed.

Lemma map_seq_ext {B : Type} (h h' : nat → B) (m : nat) :
  (∀ j, j < m → h j = h' j) → map h (seq 0 m) = map h' (seq 0 m).
Proof.
  intros Hh. apply map_ext_in. intros j Hj%in_seq. apply Hh. lia.
Qed.

(** The diagonal loop adds 1e-10 to each diagonal entry of a table. *)
Lemma regularize_exact (m : nat) (t : nat → nat → Qc) :
  regularize m (map (λ i, map (t i) (seq 0 m)) (seq 0 m))
  = Returned (map (λ i, map (λ j, t i j + (if decide (i = j) then lit_1e10 else 0))%Qc
                            (seq 0 m)) (seq 0 m)).
Proof.
  unfold regularize.
  set (step := λ (k i j : nat),
         (t i j + (if decide (i = j ∧ (i < k)%nat) then lit_1e10 else 0))%Qc).
  set (Q := λ (k : nat) (M : list (list Qc)),
         M = map (λ i, map (step k i) (seq 0 m)) (seq 0 m)).
  match goal with |- context [foldM ?g (seq ?a ?k) ?b0] =>
    destruct (foldM_seq_inv Q g a k b0) as (M1 & -> & ->)
  end.
  - unfold Q. apply map_seq_ext. intros i Hi. apply map_seq_ext. intros j Hj.
    unfold step. rewrite decide_False by lia. ring.
  - intros k M Hk ->. simpl in Hk.
    assert (map (λ i, map (step k i) (seq 0 m)) (seq 0 m) !! k
            = Some (map (step k k) (seq 0 m))) as Hrowk
      by (apply (map_seq_lookup (λ i, map (step k i) (seq 0 m))); lia).
    rewrite (at2_entry _ k k (map (step k k) (seq 0 m)));
      [| done | rewrite length_map, length_seq; lia].
    cbn [mbind outcome_bind]. unfold setAt, getRow.
    rewrite Hrowk. cbn [mbind outcome_bind].
    eexists. split; [done |]. unfold Q.
    rewrite !insert_map_seq by lia.
    apply map_seq_ext. intros i Hi. destruct (decide (i = k)) as [-> |].
    + apply map_seq_ext. intros j Hj. destruct (decide (j = k)) as [-> |].
      * rewrite (entry_lookup _ k (step k k k))
          by (apply (map_seq_lookup (step k k)); lia).
        unfold step. rewrite decide_False by lia. rewrite decide_True by lia.
        cbn [nadd exact]. ring.
      * unfold step. by rewrite !decide_False by lia.
    + apply map_seq_ext. intros j Hj. unfold step.
      destruct (decide (i = j ∧ i < k)), (decide (i = j ∧ i < S k));
        done || lia.
  - f_equal. apply map_seq_ext. intros i Hi. apply map_seq_ext. intros j Hj.
    unfold step. simpl.
    destruct (decide (i = j ∧ i < m)), (decide (i = j)); done || lia.
Qed.

Lemma solveLeastSquares_as_system (m : nat) (A : list (list Qc))
    (b : list Qc) :
  A ≠ [] → Forall (λ row, length row = m) A → length A ≤ length b →
  solveLeastSquares A b
  = solveLinearSystem (normalMatrix m A) (normalVector m A b).
Proof.
  intros Hne HA Hb. unfold solveLeastSquares.
  destruct A as [|row0 A']; [done |].
  pose proof (Forall_inv HA) as Hm. simpl in Hm.
  cbn [getRow lookup list_lookup mbind outcome_bind]. rewrite Hm.
  rewrite (buildATA_exact m), (buildATb_exact m) by done.
  cbn [mbind outcome_bind].
  rewrite (regularize_exact m
             (λ i j, qsum (map (λ row, entry row i * entry row j)%Qc
                               (row0 :: A')))).
  done.
Qed.

(** X2. On a non-empty design matrix whose rows all have [m] entries and
    with at least as many targets as rows, [solveLeastSquares] is
    [solveLinearSystem] applied to AᵗA + 1e-10·I and Aᵗb; targets beyond
    the last row are not read. *)
Theorem solveLeastSquares_normal_equations (m : nat) (A : list (list Qc))
    (b : list Qc) :
  A ≠ [] → Forall (λ row, length row = m) A → length A ≤ length b →
  solveLeastSquares A b
  = solveLinearSystem (normalMatrix m A) (normalVector m A b).
Proof.
  intros Hne HA Hb. exact (solveLeastSquares_as_system m A b Hne HA Hb).
Qed.



Lemma diagonalRegular_check (n : nat) (aug : list (list Qc)) :
  forallb (λ i, negb (nlt (nabs (entry (nth i aug []) i)) lit_1e12)) (seq 0 n)
  = true →
  diagonalRegular n aug.
Proof.
  intros Hall i row Hi Hrow. rewrite forallb_forall in Hall.
  specialize (Hall i). rewrite negb_true_iff in Hall.
  rewrite nth_lookup, Hrow in Hall. apply Hall. apply in_seq. lia.
Qed.

Lemma solveLinearSystem_solves_witness :
  shaped (length twoByTwo) (length twoByTwo) twoByTwo
  ∧ length twoByTwoRhs = length twoByTwo
  ∧ ∃ aug x,
      eliminated twoByTwo twoByTwoRhs = Returned aug
      ∧ diagonalRegular (length twoByTwo) aug
      ∧ solveLinearSystem twoByTwo twoByTwoRhs = Returned x
      ∧ fractions (Returned [x]) = Returned [[-4; 9 # 2]]%Q
      ∧ length x = length twoByTwo
      ∧ Forall2 (λ row bi, lhs (length twoByTwo) row x = bi)
          twoByTwo twoByTwoRhs.
Proof.
  assert (shaped (length twoByTwo) (length twoByTwo) twoByTwo) as Hsh
    by (split; [done | by repeat constructor]).
  split; [done |]. split; [done |].
  destruct (eliminated twoByTwo twoByTwoRhs) as [aug| |] eqn:Helim;
    [| by vm_compute in Helim..].
  destruct (solveLinearSystem twoByTwo twoByTwoRhs) as [x| |] eqn:Hx;
    [| by vm_compute in Hx..].
  assert (diagonalRegular (length twoByTwo) aug) as Hreg.
  { apply diagonalRegular_check. vm_compute in Helim.
    injection Helim as <-. by vm_compute. }
  exists aug, x. split; [done |]. split; [done |]. split; [done |].
  split; [vm_compute in Hx; injection Hx as <-; by vm_compute |].
  exact (solveLinearSystem_solves twoByTwo twoByTwoRhs x aug Hsh eq_refl
           Helim Hreg Hx).
Defined.

(** ** More on the colour-pair store *)

Lemma list_find_insert_equiv {A : Type} (P : A → Prop) `{!∀ x, Decision (P x)}
    (l : list A) (k : nat) (p p' : A) :
  l !! k = Some p → (P p ↔ P p') →
  list_find P (<[k := p']> l)
  = match list_find P l with
    | Some (k2, p2) => Some (k2, if decide (k2 = k) then p' else p2)
    | None => None
    end.
Proof.
  intros Hk HP. apply lookup_lt_Some in Hk as Hkl.
  destruct (list_find P l) as [[k2 p2]|] eqn:Hfind.
  - apply list_find_Some in Hfind as (Hk2 & HP2 & Hfirst).
    apply list_find_Some. split; [| split].
    + destruct (decide (k2 = k)) as [-> |].
      * by rewrite list_lookup_insert_eq.
      * by rewrite list_lookup_insert_ne.
    + destruct (decide (k2 = k)) as [-> |]; [| done].
      apply HP. congruence.
    + intros j y Hj Hlt. destruct (decide (j = k)) as [-> |].
      * rewrite list_lookup_insert_eq in Hj by done. injection Hj as <-.
        rewrite <- HP. by apply (Hfirst k).
      * rewrite list_lookup_insert_ne in Hj by done. by apply (Hfirst j).
  - apply list_find_None in Hfind. apply list_find_None.
    apply Forall_insert; [done |]. rewrite <- HP.
    by eapply Forall_lookup_1 in Hfind.
Qed.

(** X4. [setTargetForPair] never changes the counter, the number of pairs,
    their ids or their sources.  When the id is in the store, the first
    pair with that id gets the new target and keeps its id and source, and
    the pair at every other position is the same as before.  When the id
    is not in the store, the store is the same as before. *)
Theorem setTargetForPair_frame (i : Z) (fg : color) (st : store) :
  let st' := setTargetForPair i fg st in
  nextPairId st' = nextPairId st
  ∧ length (colorPairs st') = length (colorPairs st)
  ∧ ids st' = ids st
  ∧ map source (colorPairs st') = map source (colorPairs st)
  ∧ (i ∈ ids st →
     ∃ k p, colorPairs st !! k = Some p ∧ id p = i
            ∧ (∀ j q, colorPairs st !! j = Some q → j < k → id q ≠ i)
            ∧ colorPairs st' !! k
              = Some {| id := i; source := source p; target := Some fg |}
            ∧ ∀ j, j ≠ k → colorPairs st' !! j = colorPairs st !! j)
  ∧ (i ∉ ids st → st' = st).
Proof.
  intros st'. split; [apply nextPairId_setTargetForPair |].
  split; [| split; [apply ids_setTargetForPair |]].
  { pose proof (ids_setTargetForPair i fg st) as Hids.
    apply (f_equal length) in Hids. unfold ids in Hids.
    by rewrite !length_map in Hids. }
  subst st'. unfold setTargetForPair, ids.
  destruct (list_find _ _) as [[k p]|] eqn:Hfind; simpl.
  - apply list_find_Some in Hfind as (Hk & Hid & Hfirst).
    split; [| split].
    + change (source <$> <[k := {| id := id p; source := source p;
                                  target := Some fg |}]> (colorPairs st)
              = source <$> colorPairs st).
      rewrite list_fmap_insert. simpl. apply list_insert_id.
      by rewrite list_lookup_fmap, Hk.
    + intros _. exists k, p. split; [done |]. split; [done |].
      split; [exact Hfirst |]. split.
      * rewrite list_lookup_insert_eq by (by eapply lookup_lt_Some).
        by rewrite Hid.
      * intros j Hj. by rewrite list_lookup_insert_ne.
    + intros Hnotin. destruct Hnotin. apply list_elem_of_fmap.
      exists p. split; [done |]. by eapply list_elem_of_lookup_2.
  - split; [done |]. split; [| done].
    intros (p & Hp & Hin)%list_elem_of_fmap.
    apply list_find_None in Hfind. rewrite Forall_forall in Hfind.
    by destruct (Hfind p Hin).
Qed.

(** X5. Setting a source and setting a target commute, whatever the two
    ids are, the same pair included. *)
Theorem setSource_setTarget_commute (i j : Z) (c d : color) (st : store) :
  setSourceForPair i c (setTargetForPair j d st)
  = setTargetForPair j d (setSourceForPair i c st).
Proof.
  unfold setSourceForPair, setTargetForPair.
  destruct (list_find (λ p, id p = j) (colorPairs st)) as [[k2 p2]|] eqn:Hj;
    destruct (list_find (λ p, id p = i) (colorPairs st)) as [[k1 p1]|] eqn:Hi;
    cbn [colorPairs nextPairId]; rewrite ?Hi, ?Hj; try done.
  - pose proof Hi as Hi'. pose proof Hj as Hj'.
    apply list_find_Some in Hi' as (Hk1 & _ & _).
    apply list_find_Some in Hj' as (Hk2 & _ & _).
    rewrite (list_find_insert_equiv _ _ k2 p2) by done.
    rewrite (list_find_insert_equiv _ _ k1 p1) by done.
    rewrite Hi, Hj. cbn [colorPairs nextPairId].
    destruct (decide (k1 = k2)) as [-> |].
    + rewrite decide_True by done. assert (p1 = p2) as -> by congruence.
      by rewrite !list_insert_insert_eq.
    + rewrite decide_False by done.
      by rewrite list_insert_insert_ne by done.
  - pose proof Hj as Hj'. apply list_find_Some in Hj' as (Hk2 & _ & _).
    rewrite (list_find_insert_equiv _ _ k2 p2) by done. by rewrite Hi.
  - pose proof Hi as Hi'. apply list_find_Some in Hi' as (Hk1 & _ & _).
    rewrite (list_find_insert_equiv _ _ k1 p1) by done. by rewrite Hj.
Qed.

(** X6. Setting the source of a pair twice keeps the last colour only. *)
Theorem setSourceForPair_overwrites (i : Z) (c1 c2 : color) (st : store) :
  setSourceForPair i c2 (setSourceForPair i c1 st) = setSourceForPair i c2 st.
Proof.
  unfold setSourceForPair.
  destruct (list_find (λ p, id p = i) (colorPairs st)) as [[k p]|] eqn:Hi;
    cbn [colorPairs nextPairId]; rewrite ?Hi; [| done].
  pose proof Hi as Hi'. apply list_find_Some in Hi' as (Hk & _ & _).
  rewrite (list_find_insert_equiv _ _ k p) by done. rewrite Hi.
  rewrite decide_True by done. cbn [colorPairs nextPairId id target].
  by rewrite list_insert_insert_eq.
Qed.

Lemma filter_all {A : Type} (P : A → Prop) `{!∀ x, Decision (P x)}
    (l : list A) :
  Forall P l → filter P l = l.
Proof.
  induction 1 as [|x l Hx _ IH]; [done |].
  by rewrite filter_cons_True, IH.
Qed.

Lemma filter_ne_length (l : list Z) (i : Z) :
  NoDup l → i ∈ l → S (length (filter (λ j, j ≠ i) l)) = length l.
Proof.
  induction 1 as [|j l Hj Hnd IH]; [by intros ?%elem_of_nil |].
  intros [-> | Hin]%elem_of_cons.
  - rewrite filter_cons_False by (by intros ?). simpl. f_equal.
    rewrite filter_all; [done |]. apply Forall_forall. by intros j' Hin ->.
  - rewrite filter_cons_True by (by intros ->). simpl. f_equal. by apply IH.
Qed.

(** X7. In every state a session reaches, removing an id leaves it out of
    the store and keeps the counter; the store loses exactly one pair when
    the id was there, and is unchanged when it was not. *)
Theorem removeColorPair_removes_one (actions : list action) (i : Z) :
  let st := session actions initialStore in
  (i ∉ ids (removeColorPair i st))
  ∧ nextPairId (removeColorPair i st) = nextPairId st
  ∧ (i ∈ ids st →
     S (length (colorPairs (removeColorPair i st))) = length (colorPairs st))
  ∧ (i ∉ ids st → removeColorPair i st = st).
Proof.
  intros st.
  assert (store_inv st) as [Hsorted _].
  { apply store_inv_session. split; constructor. }
  split; [| split; [done | split]].
  - rewrite ids_removeColorPair. by intros [? _]%list_elem_of_filter.
  - intros Hin.
    pose proof (filter_ne_length (ids st) i
                  (StronglySorted_lt_NoDup _ Hsorted) Hin) as Hlen.
    rewrite <- ids_removeColorPair in Hlen. unfold ids in Hlen.
    by rewrite !length_map in Hlen.
  - intros Hnotin. unfold removeColorPair. rewrite filter_all.
    + by destruct st.
    + apply Forall_forall. intros p Hp Heq. apply Hnotin.
      apply list_elem_of_fmap. by exists p.
Qed.

(** X8. In every state a session reaches, adding a pair and removing it
    again gives back the same list of pairs, while the counter has moved
    on by one: the id is spent. *)
Theorem add_then_remove (actions : list action) :
  let st := session actions initialStore in
  colorPairs (removeColorPair (nextPairId st) (addColorPair st))
  = colorPairs st
  ∧ nextPairId (removeColorPair (nextPairId st) (addColorPair st))
    = (nextPairId st + 1)%Z.
Proof.
  intros st.
  assert (store_inv st) as [_ Hbelow].
  { apply store_inv_session. split; constructor. }
  split; [| done]. unfold removeColorPair, addColorPair. simpl.
  rewrite filter_app, filter_cons_False, filter_nil by (by intros ?).
  rewrite app_nil_r. apply filter_all.
  unfold ids in Hbelow. rewrite Forall_fmap in Hbelow.
  eapply Forall_impl; [exact Hbelow |]. simpl. intros p Hp. simpl in *. lia.
Qed.

(** ** More on the calculate button *)

Lemma zip_omap_complete (l : list pair) :
  Forall complete l → zip (omap source l) (omap target l) = omap both l.
Proof.
  induction 1 as [|p l [[s Hs] [t Ht]] _ IH]; [done |].
  simpl. unfold both at 1. rewrite Hs, Ht. simpl.
  change (list_omap pair color) with (@omap list _ pair color).
  change (list_omap pair (color * color)%type) with (@omap list _ pair (color * color)%type).
  by rewrite IH.
Qed.

Lemma omap_both_filter (l : list pair) :
  omap both (filter complete l) = omap both l.
Proof.
  induction l as [|p l IH]; [done |].
  rewrite filter_cons. destruct (decide (complete p)) as [Hc | Hc].
  - simpl. change (list_omap pair (color * color)%type)
      with (@omap list _ pair (color * color)%type). by rewrite IH.
  - simpl. change (list_omap pair (color * color)%type)
      with (@omap list _ pair (color * color)%type). rewrite IH.
    unfold both, complete in *.
    destruct (source p), (target p); simpl; try done.
    destruct Hc. split; eauto.
Qed.

Lemma calculateClick_call (st : store) (toggle : bool) src tgt pc :
  calculateClick st toggle = CallSolver src tgt pc →
  src ≠ [] ∧ length src = length tgt ∧ pc = toggle
  ∧ zip src tgt = omap both (colorPairs st).
Proof.
  unfold calculateClick.
  assert (Forall complete (filter complete (colorPairs st))) as Hall.
  { apply Forall_forall. by intros p [? _]%list_elem_of_filter. }
  destruct (omap_complete_length _ Hall) as [Hs Ht].
  destruct (Nat.eqb_spec (length (filter complete (colorPairs st))) 0)
    as [| Hpos]; [done |].
  intros [= <- <- <-]. split; [| split; [lia | split; [done |]]].
  - intros Hnil. by rewrite Hnil in Hs.
  - by rewrite zip_omap_complete, omap_both_filter.
Qed.

(** X9. When the handler calls the solver, it passes the colours of the
    pairs that have both, in the order of the store, a source and its
    target at the same position; pairs with a missing colour are left
    out. *)
Theorem calculateClick_passes_complete_pairs (st : store) (toggle : bool)
    (sourceColors targetColors : list color) (preventClipping : bool) :
  calculateClick st toggle
  = CallSolver sourceColors targetColors preventClipping →
  length sourceColors = length targetColors
  ∧ zip sourceColors targetColors = omap both (colorPairs st).
Proof.
  intros Hcall.
  destruct (calculateClick_call st toggle _ _ _ Hcall) as (_ & Hlen & _ & Hzip).
  done.
Qed.

(** X10. Whatever the store holds, a call of the solver made by the
    handler returns a matrix of three rows of three entries, each in
    [-200, 200], in exact arithmetic; in binary64 it returns three rows of
    three entries as well, and so never reaches the handler's [catch]. *)
Theorem calculateClick_solver_returns (st : store) (toggle : bool)
    (sourceColors targetColors : list color) (preventClipping : bool) :
  calculateClick st toggle
  = CallSolver sourceColors targetColors preventClipping →
  (∃ M : list (list Qc),
     computeChannelSwapperMatrix sourceColors targetColors preventClipping
       (lit 100) = Returned M
     ∧ shaped 3 3 M ∧ Forall (Forall in_range) M)
  ∧ (∃ M : list (list float),
       computeChannelSwapperMatrix sourceColors targetColors preventClipping
         (lit 100) = Returned M
       ∧ shaped 3 3 M).
Proof.
  intros Hcall.
  destruct (calculateClick_call st toggle _ _ _ Hcall) as (Hne & Hlen & _ & _).
  split.
  - destruct (compute_exact_returns sourceColors targetColors preventClipping
                (lit 100)) as (M & HM & Hsh); [by vm_compute | done.. |].
    exists M. split; [done |]. split; [done |].
    eapply Forall_impl; [exact (compute_clamped _ _ _ _ _ HM) |].
    simpl. intros row (row0 & ->). apply Forall_forall.
    intros v (v0 & -> & _)%list_elem_of_fmap. apply clamp_in_range.
  - by apply compute_binary64_returns.
Qed.

(** X11. After a source and a target have been set for an id that is in
    the store, a click calls the solver, and the two colours are passed
    as a pair. *)
Theorem set_both_then_click (i : Z) (c d : color) (st : store)
    (toggle : bool) :
  i ∈ ids st →
  ∃ sourceColors targetColors,
    calculateClick (setTargetForPair i d (setSourceForPair i c st)) toggle
    = CallSolver sourceColors targetColors toggle
    ∧ (c, d) ∈ zip sourceColors targetColors.
Proof.
  intros (p0 & Hid0 & Hin0)%list_elem_of_fmap.
  destruct (list_find_elem_of (λ p, id p = i) (colorPairs st) p0)
    as [[k p] Hfind]; [done.. |].
  pose proof Hfind as Hfind'. apply list_find_Some in Hfind' as (Hk & Hid & _).
  set (st' := setTargetForPair i d (setSourceForPair i c st)).
  assert ({| id := id p; source := Some c; target := Some d |}
          ∈ colorPairs st') as Hin.
  { unfold st', setTargetForPair, setSourceForPair. rewrite Hfind.
    cbn [colorPairs nextPairId].
    rewrite (list_find_insert_equiv _ _ k p) by done. rewrite Hfind.
    rewrite decide_True by done. cbn [colorPairs nextPairId id source].
    rewrite list_insert_insert_eq. eapply list_elem_of_lookup_2.
    apply list_lookup_insert_eq. by eapply lookup_lt_Some. }
  assert ((c, d) ∈ omap both (colorPairs st')) as Hboth.
  { apply list_elem_of_omap. eexists. split; [exact Hin | done]. }
  destruct (calculateClick st' toggle) as [text | src tgt pc] eqn:Hclick.
  - exfalso. unfold calculateClick in Hclick.
    destruct (Nat.eqb_spec (length (filter complete (colorPairs st'))) 0)
      as [Hzero |]; [| done].
    apply nil_length_inv in Hzero.
    apply (filter_nil_not_elem_of _ _ _ Hzero) in Hin; [done |].
    split; simpl; eauto.
  - destruct (calculateClick_call st' toggle _ _ _ Hclick)
      as (_ & _ & -> & Hzip).
    exists src, tgt. split; [done |]. by rewrite Hzip.
Qed.

(** ** Partial pivoting *)

(** X12. The pivot search returns a row, at or below the diagonal, whose
    entry in the column has the largest magnitude among those rows, and
    the first such row: every earlier candidate is strictly smaller. *)
Theorem findPivot_maximal n col (aug : list (list Qc)) maxRow :
  shaped n (S n) aug → col < n → findPivot n col aug = Returned maxRow →
  col ≤ maxRow < n
  ∧ (∀ r, col ≤ r < n → (pivotSize aug col r ≤ pivotSize aug col maxRow)%Qc)
  ∧ (∀ r, col ≤ r < maxRow →
          (pivotSize aug col r < pivotSize aug col maxRow)%Qc).
Proof.
  intros Hsh Hcol. unfold findPivot.
  set (Q := λ (k m : nat),
         col ≤ m < k
         ∧ (∀ r, col ≤ r < k → (pivotSize aug col r ≤ pivotSize aug col m)%Qc)
         ∧ (∀ r, col ≤ r < m → (pivotSize aug col r < pivotSize aug col m)%Qc)).
  match goal with |- context [foldM ?g (seq ?a ?k) ?b0] =>
    destruct (foldM_seq_inv Q g a k b0) as (m & -> & Hm & Hmax & Hfirst)
  end.
  - split; [lia |]. split.
    + intros r Hr. replace r with col by lia. apply Qcle_refl.
    + intros r Hr. lia.
  - intros k m Hk (Hm & Hmax & Hfirst).
    destruct (shaped_lookup n (S n) aug k) as (rowk & Hrowk & Hlk); [done | lia |].
    destruct (shaped_lookup n (S n) aug m) as (rowm & Hrowm & Hlm); [done | lia |].
    rewrite (at2_entry aug k col rowk), (at2_entry aug m col rowm)
      by (done || lia).
    cbn [mbind outcome_bind]. eexists. split; [done |].
    assert (pivotSize aug col k = Qc_abs (entry rowk col)) as Hpk
      by (unfold pivotSize; by rewrite nth_lookup, Hrowk).
    assert (pivotSize aug col m = Qc_abs (entry rowm col)) as Hpm
      by (unfold pivotSize; by rewrite nth_lookup, Hrowm).
    change (@nlt Qc exact) with Qc_ltb. change (@nabs Qc exact) with Qc_abs.
    rewrite <- Hpk, <- Hpm.
    destruct (Qc_ltb (pivotSize aug col m) (pivotSize aug col k)) eqn:Hlt.
    + apply Qc_ltb_lt in Hlt. split; [lia |]. split.
      * intros r Hr. destruct (decide (r = k)) as [-> |]; [apply Qcle_refl |].
        apply Qclt_le_weak. eapply Qcle_lt_trans; [apply Hmax; lia | done].
      * intros r Hr. eapply Qcle_lt_trans; [apply Hmax; lia | done].
    + apply Qc_ltb_ge in Hlt. split; [lia |]. split; [| done].
      intros r Hr. destruct (decide (r = k)) as [-> |]; [done |].
      apply Hmax. lia.
  - intros [= <-]. replace (S col + (n - S col)) with n in * by lia.
    split; [lia |]. done.
Qed.

(** ** Channels, surplus targets, rescaling and the clamp *)

Lemma mapMo_lookup {A B : Type} (f : A → outcome B) (l : list A)
    (bs : list B) :
  mapMo f l = Returned bs →
  ∀ i a, l !! i = Some a → ∃ b, f a = Returned b ∧ bs !! i = Some b.
Proof.
  revert bs. induction l as [|a l IH]; intros bs; simpl.
  - intros _ i a0 Hi. done.
  - destruct (f a) as [b0| |] eqn:Hb; simpl; try done.
    destruct (mapMo f l) as [bs0| |] eqn:Hbs; simpl; try done.
    intros [= <-] [|i] a0 Hi; simpl in *.
    + injection Hi as <-. eauto.
    + by apply (IH bs0).
Qed.

Lemma compute_row (sourceColors targetColors : list color) (pc : bool)
    (maxSum : Qc) (M : list (list Qc)) (channel : nat) :
  channel < 3 →
  computeChannelSwapperMatrix sourceColors targetColors pc maxSum = Returned M →
  ∃ row,
    channelRow (map normalized sourceColors) (map normalized targetColors)
      pc maxSum channel = Returned row
    ∧ M !! channel = Some row.
Proof.
  intros Hch. unfold computeChannelSwapperMatrix.
  rewrite !(mapMo_pure normalize normalized) by (intros; apply normalize_exact).
  cbn [mbind outcome_bind]. intros HM.
  apply (mapMo_lookup _ _ _ HM channel channel). by apply lookup_seq_lt.
Qed.

(** X13. Row [c] of the matrix depends on the target colours through their
    channel [c] only: two target lists that agree on that channel give the
    same row [c], whatever their other channels are. *)
Theorem row_depends_on_own_channel (sourceColors targetColors
    targetColors' : list color) (preventClipping : bool) (maxSum : Qc)
    (M M' : list (list Qc)) (channel : nat) :
  channel < 3 →
  map (component channel) targetColors = map (component channel) targetColors' →
  computeChannelSwapperMatrix sourceColors targetColors preventClipping maxSum
  = Returned M →
  computeChannelSwapperMatrix sourceColors targetColors' preventClipping maxSum
  = Returned M' →
  M !! channel = M' !! channel.
Proof.
  intros Hch Heq HM HM'.
  destruct (compute_row _ _ _ _ _ channel Hch HM) as (row & Hrow & ->).
  destruct (compute_row _ _ _ _ _ channel Hch HM') as (row' & Hrow' & ->).
  unfold channelRow in Hrow, Hrow'.
  rewrite targetValues_exact in Hrow, Hrow' by done.
  rewrite Heq in Hrow. congruence.
Qed.

Lemma zip_with_surplus {A B C : Type} (f : A → B → C) (l : list A)
    (k k' : list B) :
  length l ≤ length k → zip_with f l (k ++ k') = zip_with f l k.
Proof.
  revert k. induction l as [|a l IH]; intros [|b k] Hlen; simpl in *;
    try done; try lia.
  f_equal. apply IH. lia.
Qed.

Lemma solveLeastSquares_surplus (A : list (list Qc)) (b b' : list Qc) :
  Forall (λ row, length row = 3) A → length A ≤ length b →
  solveLeastSquares A (b ++ b') = solveLeastSquares A b.
Proof.
  intros HA Hb. destruct (decide (A = [])) as [-> | Hne]; [done |].
  rewrite !(solveLeastSquares_as_system 3)
    by (done || rewrite ?length_app; lia).
  unfold normalVector. f_equal. apply map_ext. intros i.
  by rewrite zip_with_surplus.
Qed.

(** X14. Target colours beyond the number of source colours are ignored:
    the result is the one for the targets cut to the length of the
    sources. *)
Theorem surplus_targets_ignored (sourceColors targetColors
    surplus : list color) (preventClipping : bool) (maxSum : Qc) :
  length sourceColors = length targetColors →
  computeChannelSwapperMatrix sourceColors (targetColors ++ surplus)
    preventClipping maxSum
  = computeChannelSwapperMatrix sourceColors targetColors preventClipping
      maxSum.
Proof.
  intros Hlen. unfold computeChannelSwapperMatrix.
  rewrite !(mapMo_pure normalize normalized) by (intros; apply normalize_exact).
  cbn [mbind outcome_bind].
  apply mapMo_ext. intros channel Hch%elem_of_seq. unfold channelRow.
  rewrite !targetValues_exact by lia. cbn [mbind outcome_bind].
  rewrite map_app, solveLeastSquares_surplus; [done | |].
  - apply Forall_forall. by intros row (c & -> & _)%list_elem_of_fmap.
  - rewrite !length_map. lia.
Qed.





Lemma exact_min_monotone (a v w : Qc) :
  (v ≤ w)%Qc → (nmin a v ≤ nmin a w)%Qc.
Proof.
  intros Hvw. simpl.
  destruct (Qc_ltb v a) eqn:Ev; destruct (Qc_ltb w a) eqn:Ew.
  - done.
  - apply Qc_ltb_lt in Ev. by apply Qclt_le_weak.
  - apply Qc_ltb_ge in Ev. apply Qc_ltb_lt in Ew.
    exfalso. apply (Qclt_not_le _ _ Ew). by eapply Qcle_trans.
  - apply Qcle_refl.
Qed.

Lemma exact_max_monotone (a v w : Qc) :
  (v ≤ w)%Qc → (nmax a v ≤ nmax a w)%Qc.
Proof.
  intros Hvw. simpl.
  destruct (Qc_ltb a v) eqn:Ev; destruct (Qc_ltb a w) eqn:Ew.
  - done.
  - apply Qc_ltb_lt in Ev. apply Qc_ltb_ge in Ew.
    exfalso. apply (Qclt_not_le _ _ Ev). by eapply Qcle_trans.
  - apply Qc_ltb_lt in Ew. by apply Qclt_le_weak.
  - apply Qcle_refl.
Qed.

Lemma clamp_monotone (v w : Qc) : (v ≤ w)%Qc → (clamp v ≤ clamp w)%Qc.
Proof.
  intros Hvw. unfold clamp. by apply exact_max_monotone, exact_min_monotone.
Qed.

(** X16. The clamp maps every number into [-200, 200], leaves the numbers
    of that interval as they are, is monotone, and applying it twice is
    the same as applying it once. *)
Theorem clamp_is_projection (v w : Qc) :
  in_range (clamp v)
  ∧ (in_range v → clamp v = v)
  ∧ ((v ≤ w)%Qc → (clamp v ≤ clamp w)%Qc)
  ∧ clamp (clamp v) = clamp v.
Proof.
  split; [apply clamp_in_range |]. split; [apply clamp_fixes_in_range |].
  split; [apply clamp_monotone |].
  apply clamp_fixes_in_range, clamp_in_range.
Qed.

(** ** Handing the matrix to Photoshop *)

Lemma mathRound_lit (z : Z) : mathRound (lit z) = z.
Proof.
  unfold mathRound.
  rewrite (Qfloor_comp _ (inject_Z z + (1 # 2))%Q)
    by (simpl; by rewrite Qred_correct).
  apply Z.le_antisymm.
  - pose proof (Qfloor_le (inject_Z z + (1 # 2))) as Hle.
    set (f := Qfloor (inject_Z z + (1 # 2))) in *.
    unfold Qle in Hle. simpl in Hle. lia.
  - rewrite <- (Qfloor_Z z) at 1. apply Qfloor_resp_le.
    unfold Qle. simpl. lia.
Qed.

Lemma mathRound_monotone (v w : Qc) :
  (v ≤ w)%Qc → (mathRound v ≤ mathRound w)%Z.
Proof.
  intros Hvw. unfold mathRound. apply Qfloor_resp_le.
  apply Qplus_le_compat; [exact Hvw | apply Qle_refl].
Qed.


(** X17. The colour [getCurrentForegroundColor] returns is well formed
    whenever the three channels the host reports lie in [0, 255], and a
    host colour with integer channels is returned as it is. *)
Theorem foreground_color_well_formed (fgRed fgGreen fgBlue : Qc) :
  ((lit 0 ≤ fgRed ≤ lit 255)%Qc → (lit 0 ≤ fgGreen ≤ lit 255)%Qc →
   (lit 0 ≤ fgBlue ≤ lit 255)%Qc →
   well_formed (getCurrentForegroundColor fgRed fgGreen fgBlue))
  ∧ ∀ red green blue : Z,
      getCurrentForegroundColor (lit red) (lit green) (lit blue)
      = {| r := red; g := green; b := blue |}.
Proof.
  split.
  - intros [Hr0 Hr1] [Hg0 Hg1] [Hb0 Hb1].
    unfold well_formed, channel_ok, getCurrentForegroundColor. simpl.
    apply mathRound_monotone in Hr0, Hr1, Hg0, Hg1, Hb0, Hb1.
    rewrite !mathRound_lit in Hr0, Hr1, Hg0, Hg1, Hb0, Hb1. lia.
  - intros red green blue. unfold getCurrentForegroundColor.
    by rewrite !mathRound_lit.
Qed.

Lemma length_3 {A : Type} (l : list A) :
  length l = 3 → ∃ x y z, l = [x; y; z].
Proof.
  destruct l as [|x [|y [|z [|]]]]; try done. intros _. by exists x, y, z.
Qed.

Lemma shaped_3_3 (M : list (list Qc)) :
  shaped 3 3 M →
  ∃ a0 a1 a2 b0 b1 b2 c0 c1 c2,
    M = [[a0; a1; a2]; [b0; b1; b2]; [c0; c1; c2]].
Proof.
  intros [(ra & rb & rc & ->)%length_3 Hrows].
  apply Forall_cons in Hrows as [(a0 & a1 & a2 & ->)%length_3 Hrows].
  apply Forall_cons in Hrows as [(b0 & b1 & b2 & ->)%length_3 Hrows].
  apply Forall_cons in Hrows as [(c0 & c1 & c2 & ->)%length_3 _].
  by exists a0, a1, a2, b0, b1, b2, c0, c1, c2.
Qed.

(** X18. For a matrix of three rows of three entries, the descriptor built
    from the settings has, for output channel i and input channel j, the
    weight [Math.round(matrix[i][j])]: rows and columns are not exchanged
    on the way through the twelve named settings.  Its three constants
    are 0. *)
Theorem descriptor_holds_rounded_matrix (M : list (list Qc)) :
  shaped 3 3 M →
  ∃ s, roundedSettings M = Returned s
       ∧ weights (channelMixerDescriptor s) = map (map mathRound) M
       ∧ constants (channelMixerDescriptor s) = [0; 0; 0]%Z.
Proof.
  intros (a0 & a1 & a2 & b0 & b1 & b2 & c0 & c1 & c2 & ->)%shaped_3_3.
  eexists. split; [reflexivity |]. done.
Qed.


(** ** The clamp in binary64 *)

Lemma SFcompare_antisym (a b : spec_float) :
  SFcompare b a = option_map CompOpp (SFcompare a b).
Proof.
  destruct a as [sa | sa | | sa ma ea], b as [sb | sb | | sb mb eb]; simpl;
    try done; try (by destruct sa); try (by destruct sb);
    try (by destruct sa, sb).
  f_equal. destruct sa, sb; try done.
  - rewrite (Z.compare_antisym ea eb).
    destruct (ea ?= eb)%Z; simpl; try done.
    f_equal. exact (eq_sym (Pos.compare_cont_antisym ma mb Eq)).
  - rewrite (Z.compare_antisym ea eb).
    destruct (ea ?= eb)%Z; simpl; try done.
    exact (eq_sym (Pos.compare_cont_antisym ma mb Eq)).
Qed.

Lemma SFcompare_None (a b : spec_float) :
  SFcompare a b = None → a = S754_nan ∨ b = S754_nan.
Proof. destruct a, b; simpl; try done; auto. Qed.

Lemma is_nan_false_SF (v : float) :
  PrimFloat.is_nan v = false → Prim2SF v ≠ S754_nan.
Proof.
  intros H. unfold Prim2SF. rewrite H.
  repeat case_match; done.
Qed.

Lemma is_nan_leb_l (a b : float) :
  PrimFloat.leb a b = true → PrimFloat.is_nan a = false.
Proof.
  rewrite leb_spec. unfold SFleb, Prim2SF at 1.
  destruct (PrimFloat.is_nan a); [| done]. by simpl.
Qed.

(** Two numbers neither of which is below the other compare as equal. *)
Lemma float_tie_leb (a b : float) :
  PrimFloat.is_nan a = false → PrimFloat.is_nan b = false →
  PrimFloat.ltb a b = false → PrimFloat.ltb b a = false →
  PrimFloat.leb a b = true ∧ PrimFloat.leb b a = true.
Proof.
  intros Ha%is_nan_false_SF Hb%is_nan_false_SF.
  rewrite !ltb_spec, !leb_spec. unfold SFltb, SFleb.
  rewrite (SFcompare_antisym (Prim2SF a) (Prim2SF b)).
  destruct (SFcompare (Prim2SF a) (Prim2SF b)) as [[| |]|] eqn:Hc; simpl;
    try done.
  by destruct (SFcompare_None _ _ Hc).
Qed.

Lemma float_ltb_leb (a b : float) :
  PrimFloat.ltb a b = true → PrimFloat.leb a b = true.
Proof.
  rewrite ltb_spec, leb_spec. unfold SFltb, SFleb.
  by destruct (SFcompare _ _) as [[| |]|].
Qed.

Lemma binary64_clamp (v : float) :
  (PrimFloat.is_nan v = true → PrimFloat.is_nan (clamp v) = true)
  ∧ (PrimFloat.is_nan v = false →
     PrimFloat.leb (-200) (clamp v) = true ∧ PrimFloat.leb (clamp v) 200 = true).
Proof.
  unfold clamp. cbn [nmax nmin lit binary64].
  replace (float_of_Z 200) with 200%float by (by vm_compute).
  replace (float_of_Z (-200)) with (-200)%float by (by vm_compute).
  split.
  - intros Hnan. unfold float_min. rewrite Hnan, orb_true_r.
    by vm_compute.
  - intros Hnum.
    assert (PrimFloat.is_nan 200 = false) as H200 by (by vm_compute).
    assert (PrimFloat.is_nan (-200) = false) as Hm200 by (by vm_compute).
    assert (PrimFloat.is_nan (float_min 200 v) = false
            ∧ PrimFloat.leb (float_min 200 v) 200 = true) as [Hmnan Hmle].
    { unfold float_min. rewrite H200, Hnum. simpl.
      destruct (PrimFloat.ltb 200 v) eqn:H1; [by vm_compute |].
      destruct (PrimFloat.ltb v 200) eqn:H2.
      - split; [done |]. by apply float_ltb_leb.
      - replace (PrimFloat.get_sign 200) with false by (by vm_compute).
        split; [done |]. by apply (float_tie_leb v 200). }
    set (m := float_min 200 v) in *.
    unfold float_max. rewrite Hm200, Hmnan. simpl.
    destruct (PrimFloat.ltb (-200) m) eqn:H1.
    { split; [by apply float_ltb_leb | done]. }
    destruct (PrimFloat.ltb m (-200)) eqn:H2; [by vm_compute |].
    replace (PrimFloat.get_sign (-200)) with true by (by vm_compute).
    split; [| done]. by apply (float_tie_leb (-200) m).
Qed.

(** X20. In binary64, for every [maxSum], the computation returns three
    rows of three entries on every non-empty list of sources with as many
    targets, and every entry is [NaN] or lies in [-200, 200]: the clamp
    bounds every number, infinities included, and lets [NaN] through. *)
Theorem binary64_entries_clamped (sourceColors targetColors : list color)
    (preventClipping : bool) (maxSum : float) :
  sourceColors ≠ [] → length sourceColors = length targetColors →
  ∃ M : list (list float),
    computeChannelSwapperMatrix sourceColors targetColors preventClipping
      maxSum = Returned M
    ∧ shaped 3 3 M ∧ Forall (Forall nan_or_in_range) M.
Proof.
  intros Hne Hlen.
  destruct (compute_binary64_returns sourceColors targetColors
              preventClipping maxSum Hne Hlen) as (M & HM & Hshape).
  exists M. split; [done |]. split; [done |].
  eapply Forall_impl; [exact (compute_clamped _ _ _ _ _ HM) |].
  simpl. intros row (row0 & ->). apply Forall_forall.
  intros v (v0 & -> & _)%list_elem_of_fmap. unfold nan_or_in_range.
  destruct (binary64_clamp v0) as [Hnan Hnum].
  destruct (PrimFloat.is_nan v0); [left; by apply Hnan | right; by apply Hnum].
Qed.

(** ** Well-formed colours on the way to the solver *)

Lemma pair_ok_perform (st : store) (a : action) :
  action_ok a → Forall pair_ok (colorPairs st) →
  Forall pair_ok (colorPairs (perform st a)).
Proof.
  intros Ha Hst. destruct a as [|i|i fg|i fg]; simpl in *.
  - apply Forall_app. split; [done |]. repeat constructor; simpl; done.
  - apply Forall_forall. intros p [_ Hp]%list_elem_of_filter.
    rewrite Forall_forall in Hst. by apply Hst.
  - unfold setSourceForPair.
    destruct (list_find _ _) as [[k p]|] eqn:Hfind; [| done]. simpl.
    apply list_find_Some in Hfind as (Hk & _ & _).
    apply Forall_insert; [done |].
    eapply Forall_lookup_1 in Hst as [_ Ht]; [| exact Hk].
    split; simpl; [by intros c [= <-] | done].
  - unfold setTargetForPair.
    destruct (list_find _ _) as [[k p]|] eqn:Hfind; [| done]. simpl.
    apply list_find_Some in Hfind as (Hk & _ & _).
    apply Forall_insert; [done |].
    eapply Forall_lookup_1 in Hst as [Hs _]; [| exact Hk].
    split; simpl; [done | by intros c [= <-]].
Qed.

Lemma pair_ok_session (actions : list action) (st : store) :
  Forall action_ok actions → Forall pair_ok (colorPairs st) →
  Forall pair_ok (colorPairs (session actions st)).
Proof.
  revert st. induction actions as [|a actions IH]; intros st Ha Hst; [done |].
  apply Forall_cons in Ha as [Ha Has]. simpl.
  by apply IH, pair_ok_perform.
Qed.

(** X21. In a session whose colours are all well formed (as those of
    [getCurrentForegroundColor] are), every colour the handler passes to
    the solver is well formed. *)
Theorem solver_gets_well_formed_colors (actions : list action)
    (toggle : bool) (sourceColors targetColors : list color)
    (preventClipping : bool) :
  Forall action_ok actions →
  calculateClick (session actions initialStore) toggle
  = CallSolver sourceColors targetColors preventClipping →
  Forall well_formed sourceColors ∧ Forall well_formed targetColors.
Proof.
  intros Ha. unfold calculateClick.
  destruct (Nat.eqb _ 0); [done |]. intros [= <- <- <-].
  pose proof (pair_ok_session actions initialStore Ha (Forall_nil_2 _)) as Hok.
  rewrite Forall_forall in Hok.
  split; apply Forall_forall; intros c (p & [_ Hp]%list_elem_of_filter & Hc)%list_elem_of_omap;
    destruct (Hok p Hp) as [Hs Ht]; auto.
Qed.

(** ** The statements at concrete inputs *)

Lemma solveLeastSquares_normal_equations_witness :
  twoByTwo ≠ [] ∧ Forall (λ row : list Qc, length row = 2) twoByTwo
  ∧ length twoByTwo ≤ length twoByTwoRhs
  ∧ solveLeastSquares twoByTwo twoByTwoRhs
    = solveLinearSystem (normalMatrix 2 twoByTwo)
        (normalVector 2 twoByTwo twoByTwoRhs).
Proof.
  assert (Forall (λ row : list Qc, length row = 2) twoByTwo) as Hrows
    by (by repeat constructor).
  split; [done |]. split; [done |]. split; [done |].
  exact (solveLeastSquares_normal_equations 2 twoByTwo twoByTwoRhs
           ltac:(done) Hrows (le_n 2)).
Defined.


Lemma calculateClick_passes_complete_pairs_witness :
  calculateClick oneComplete true
  = CallSolver [rgb 255 0 0] [rgb 0 255 0] true
  ∧ length [rgb 255 0 0] = length [rgb 0 255 0]
  ∧ zip [rgb 255 0 0] [rgb 0 255 0] = omap both (colorPairs oneComplete).
Proof.
  split; [done |].
  exact (calculateClick_passes_complete_pairs oneComplete true
           [rgb 255 0 0] [rgb 0 255 0] true eq_refl).
Defined.

Lemma calculateClick_solver_returns_witness :
  calculateClick oneComplete false
  = CallSolver [rgb 255 0 0] [rgb 0 255 0] false
  ∧ (∃ M : list (list Qc),
       computeChannelSwapperMatrix [rgb 255 0 0] [rgb 0 255 0] false (lit 100)
       = Returned M
       ∧ shaped 3 3 M ∧ Forall (Forall in_range) M)
  ∧ (∃ M : list (list float),
       computeChannelSwapperMatrix [rgb 255 0 0] [rgb 0 255 0] false (lit 100)
       = Returned M
       ∧ shaped 3 3 M).
Proof.
  split; [done |].
  exact (calculateClick_solver_returns oneComplete false
           [rgb 255 0 0] [rgb 0 255 0] false eq_refl).
Defined.

Lemma set_both_then_click_witness :
  2%Z ∈ ids oneComplete
  ∧ ∃ sourceColors targetColors,
      calculateClick
        (setTargetForPair 2 (rgb 4 5 6) (setSourceForPair 2 (rgb 1 2 3) oneComplete))
        true
      = CallSolver sourceColors targetColors true
      ∧ (rgb 1 2 3, rgb 4 5 6) ∈ zip sourceColors targetColors.
Proof.
  assert (2%Z ∈ ids oneComplete) as Hin by (right; left).
  split; [done |].
  exact (set_both_then_click 2 (rgb 1 2 3) (rgb 4 5 6) oneComplete true Hin).
Defined.

Lemma findPivot_maximal_witness :
  shaped 3 4 rankOne ∧ 0 < 3 ∧ findPivot 3 0 rankOne = Returned 0
  ∧ 0 ≤ 0 < 3
  ∧ (∀ r, 0 ≤ r < 3 → (pivotSize rankOne 0 r ≤ pivotSize rankOne 0 0)%Qc)
  ∧ (∀ r, 0 ≤ r < 0 → (pivotSize rankOne 0 r < pivotSize rankOne 0 0)%Qc).
Proof.
  assert (shaped 3 4 rankOne) as Hsh
    by (split; [done | by repeat constructor]).
  split; [done |]. split; [lia |]. split; [by vm_compute |].
  exact (findPivot_maximal 3 0 rankOne 0 Hsh ltac:(lia) ltac:(by vm_compute)).
Defined.

Lemma row_depends_on_own_channel_witness :
  0 < 3
  ∧ map (component 0) steepTargets
    = map (component 0) [rgb 102 0 7; rgb 102 1 8; rgb 51 2 9]
  ∧ ∃ M M' : list (list Qc),
      computeChannelSwapperMatrix steepSources steepTargets true (lit 100)
      = Returned M
      ∧ computeChannelSwapperMatrix steepSources
          [rgb 102 0 7; rgb 102 1 8; rgb 51 2 9] true (lit 100)
        = Returned M'
      ∧ M !! 0 = M' !! 0.
Proof.
  split; [lia |]. split; [done |].
  destruct (computeChannelSwapperMatrix steepSources steepTargets true
              (lit 100 : Qc)) as [M| |] eqn:HM; [| by vm_compute in HM..].
  destruct (computeChannelSwapperMatrix steepSources
              [rgb 102 0 7; rgb 102 1 8; rgb 51 2 9] true (lit 100 : Qc))
    as [M'| |] eqn:HM'; [| by vm_compute in HM'..].
  exists M, M'. split; [done |]. split; [done |].
  exact (row_depends_on_own_channel steepSources steepTargets
           [rgb 102 0 7; rgb 102 1 8; rgb 51 2 9] true (lit 100) M M' 0
           ltac:(lia) eq_refl HM HM').
Defined.

Lemma surplus_targets_ignored_witness :
  length steepSources = length steepTargets
  ∧ computeChannelSwapperMatrix steepSources (steepTargets ++ [rgb 1 2 3])
      true (lit 100 : Qc)
    = computeChannelSwapperMatrix steepSources steepTargets true (lit 100).
Proof.
  split; [done |].
  exact (surplus_targets_ignored steepSources steepTargets [rgb 1 2 3] true
           (lit 100) eq_refl).
Defined.


Lemma descriptor_holds_rounded_matrix_witness :
  shaped 3 3 [[lit 100; lit 0; lit 0]; [lit (-200); lit 200; lit 100];
              [lit 1 / lit 2; lit 3 / lit 2; lit (-1) / lit 2]]%Qc
  ∧ ∃ s,
      roundedSettings [[lit 100; lit 0; lit 0]; [lit (-200); lit 200; lit 100];
                       [lit 1 / lit 2; lit 3 / lit 2; lit (-1) / lit 2]]%Qc
      = Returned s
      ∧ weights (channelMixerDescriptor s)
        = map (map mathRound)
            [[lit 100; lit 0; lit 0]; [lit (-200); lit 200; lit 100];
             [lit 1 / lit 2; lit 3 / lit 2; lit (-1) / lit 2]]%Qc
      ∧ constants (channelMixerDescriptor s) = [0; 0; 0]%Z.
Proof.
  assert (shaped 3 3 [[lit 100; lit 0; lit 0]; [lit (-200); lit 200; lit 100];
                      [lit 1 / lit 2; lit 3 / lit 2; lit (-1) / lit 2]]%Qc)
    as Hsh by (split; [done | by repeat constructor]).
  split; [done |].
  exact (descriptor_holds_rounded_matrix _ Hsh).
Defined.


Lemma binary64_entries_clamped_witness :
  steepSources ≠ [] ∧ length steepSources = length steepTargets
  ∧ ∃ M : list (list float),
      computeChannelSwapperMatrix steepSources steepTargets true
        PrimFloat.infinity = Returned M
      ∧ shaped 3 3 M ∧ Forall (Forall nan_or_in_range) M.
Proof.
  split; [done |]. split; [done |].
  exact (binary64_entries_clamped steepSources steepTargets true
           PrimFloat.infinity ltac:(done) eq_refl).
Defined.

Lemma solver_gets_well_formed_colors_witness :
  Forall action_ok
    [Add; SetSource 1 (rgb 255 0 0); SetTarget 1 (rgb 0 255 0); Add]
  ∧ calculateClick oneComplete true
    = CallSolver [rgb 255 0 0] [rgb 0 255 0] true
  ∧ Forall well_formed [rgb 255 0 0] ∧ Forall well_formed [rgb 0 255 0].
Proof.
  assert (Forall action_ok
            [Add; SetSource 1 (rgb 255 0 0); SetTarget 1 (rgb 0 255 0); Add])
    as Hok by (repeat constructor; by vm_compute).
  split; [done |]. split; [done |].
  exact (solver_gets_well_formed_colors
           [Add; SetSource 1 (rgb 255 0 0); SetTarget 1 (rgb 0 255 0); Add]
           true [rgb 255 0 0] [rgb 0 255 0] true Hok eq_refl).
Defined.
